(** * RSA primitives of crypto/public_key/rsa.js

    A shallow embedding of [src/crypto/public_key/rsa.js]: the blinding
    state, CRT decryption, encryption, signing, verification and the two
    key-generation strategies, followed by the properties established
    about them. *)

From Stdlib Require Import ZArith Lia List Bool Ascii String.
From Stdlib Require Import Zdivisibility Zcong.
From Stdlib Require Import Zmod.ZmodInv.
Import ListNotations.
#[local] Open Scope Z_scope.

(** ** The arbitrary-precision integer type

    rsa.js obtains [BigInteger] from [require('./jsbn.js')], a file that is
    not among the sources.  Its operations are described by section 3 of the
    specification as total operations on immutable integer values; a
    [BigInteger] is therefore a [Z] here. *)

Module BigInteger.

(** Modelled from the spec: the constant [BigInteger.ZERO] of jsbn.js. *)
Definition ZERO : Z := 0.

(** Modelled from the spec: the constant [BigInteger.ONE] of jsbn.js. *)
Definition ONE : Z := 1.

(** Modelled from the spec: the constant [BigInteger.TWO] of jsbn.js. *)
Definition TWO : Z := 2.

(** Modelled from the spec: [a.add(b)] of jsbn.js. *)
Definition add (a b : Z) : Z := a + b.

(** Modelled from the spec: [a.subtract(b)] of jsbn.js. *)
Definition subtract (a b : Z) : Z := a - b.

(** Modelled from the spec: [a.multiply(b)] of jsbn.js. *)
Definition multiply (a b : Z) : Z := a * b.

(** Modelled from the spec: [a.square()] of jsbn.js. *)
Definition square (a : Z) : Z := a * a.

(** Modelled from the spec: [a.mod(m)] of jsbn.js, modular reduction; for a
    positive modulus the result lies in [[0, m)], also when [a] is negative. *)
Definition mod_ (a m : Z) : Z := a mod m.

(** Modelled from the spec: [a.modPow(e, m)] of jsbn.js, modular
    exponentiation [a^e mod m] with an arbitrary-precision exponent. *)
Definition modPow (a e m : Z) : Z := (a ^ e) mod m.

(** Modelled from the spec: [a.modPowInt(e, m)] of jsbn.js, the same
    exponentiation on the fast path for a small integer exponent. *)
Definition modPowInt (a e m : Z) : Z := (a ^ e) mod m.

(** Modelled from the spec: [a.gcd(b)] of jsbn.js. *)
Definition gcd (a b : Z) : Z := Z.gcd a b.

(** Modelled from the spec: [a.modInverse(m)] of jsbn.js, the inverse of [a]
    modulo [m] in [[0, m)]; an argument that has no inverse yields [ZERO]. *)
Definition modInverse (a m : Z) : Z :=
  if Z.gcd a m =? 1 then Z.invmod a m else ZERO.

(** Modelled from the spec: [a.compareTo(b)] of jsbn.js; negative, zero or
    positive as [a] is below, equal to or above [b]. *)
Definition compareTo (a b : Z) : Z := a - b.

(** Modelled from the spec: [a.bitLength()] of jsbn.js for a non-negative
    value: the number of bits of [a], and [0] for zero. *)
Definition bitLength (a : Z) : Z :=
  if 0 <? a then Z.log2 a + 1 else 0.

(** A JavaScript value read out of a limb slot: a number, or [undefined]
    when the slot was never written. *)
Inductive slot : Type :=
| js_undefined : slot
| js_number (d : Z) : slot.

(** Modelled from the spec: the read [t[0]] of decrypt, which section 4.2
    calls the low-order digit/limb of [t] in the internal representation
    of jsbn.js.  A [BigInteger] is an array of [DB]-bit limbs, least
    significant first, in two's complement with a separate sign.
    [subtract_limb0 DB a b] is the JavaScript value of [a.subtract(b)[0]]
    for non-negative [a] and [b]: [subtract] stores one limb of the
    difference for every limb of its longer operand, so limb [0] holds
    [(a - b) mod 2^DB] as soon as one operand is non-zero (also when the
    difference itself is zero), and the slot stays [undefined] when both
    operands are zero and have no limb at all. *)
Definition subtract_limb0 (DB a b : Z) : slot :=
  if (a =? 0) && (b =? 0) then js_undefined
  else js_number ((a - b) mod 2 ^ DB).

End BigInteger.

(** The arithmetic operations unfold to their meaning on [Z]. *)
Create HintDb bigint.
#[global] Hint Unfold BigInteger.ZERO BigInteger.ONE BigInteger.TWO
  BigInteger.add BigInteger.subtract BigInteger.multiply BigInteger.square
  BigInteger.mod_ BigInteger.modPow BigInteger.modPowInt BigInteger.gcd
  BigInteger.compareTo : bigint.

Ltac to_Z := autounfold with bigint in *.

(** [x === 0] of JavaScript on a limb slot. *)
Definition strict_eq_zero (x : BigInteger.slot) : bool :=
  match x with
  | BigInteger.js_undefined => false
  | BigInteger.js_number d => d =? 0
  end.

(** ** Configuration and shared state *)

(** [require('../../config')]: the only flag rsa.js reads. *)
Record Config : Type := { rsa_blinding : bool }.

(** The module-level variables [blinder] and [unblinder] of rsa.js, and the
    number of calls made so far to the random source. *)
Record State : Type := mkState {
  blinder : Z;
  unblinder : Z;
  draws : nat
}.

(** [var blinder = BigInteger.ZERO; var unblinder = BigInteger.ZERO;] *)
Definition initial_state : State :=
  {| blinder := BigInteger.ZERO; unblinder := BigInteger.ZERO; draws := 0 |}.

(** Computations that read and write the shared state. *)
Definition Blinding (A : Type) : Type := State -> A * State.

Definition ret {A : Type} (a : A) : Blinding A := fun s => (a, s).

Definition bind {A B : Type} (c : Blinding A) (k : A -> Blinding B)
  : Blinding B :=
  fun s => let (a, s') := c s in k a s'.

Declare Scope blinding_scope.
Delimit Scope blinding_scope with blinding.
Notation "x <- c ;; k" := (bind c (fun x => k))
  (at level 61, c at next level, right associativity) : blinding_scope.

Definition get_unblinder : Blinding Z := fun s => (unblinder s, s).
Definition get_blinder : Blinding Z := fun s => (blinder s, s).
Definition set_unblinder (v : Z) : Blinding unit :=
  fun s => (tt, {| blinder := blinder s; unblinder := v; draws := draws s |}).
Definition set_blinder (v : Z) : Blinding unit :=
  fun s => (tt, {| blinder := v; unblinder := unblinder s; draws := draws s |}).

Section Primitives.

(** Limb width of the BigInteger build; jsbn.js fixes it when it is loaded. *)
Variable DB : Z.

Variable config : Config.

(** [random.getRandomBigIntegerInRange(min, max)] of crypto/random.js, an
    external collaborator: the value its [k]-th call returns. *)
Variable getRandomBigIntegerInRange : nat -> Z -> Z -> Z.

Import BigInteger.
#[local] Open Scope blinding_scope.

Definition random_in_range (lo hi : Z) : Blinding Z :=
  fun s => (getRandomBigIntegerInRange (draws s) lo hi,
            {| blinder := blinder s; unblinder := unblinder s;
               draws := S (draws s) |}).

(** [function blind(m, n, e)] *)
Definition blind (m n e : Z) : Blinding Z :=
  ub <- get_unblinder ;;
  ub' <- (if bitLength ub =? bitLength n
          then ret (mod_ (square ub) n)
          else random_in_range TWO n) ;;
  _ <- set_unblinder ub' ;;
  _ <- set_blinder (modPow (modInverse ub' n) e n) ;;
  b <- get_blinder ;;
  ret (mod_ (multiply m b) n).

(** [function unblind(t, n)] *)
Definition unblind (t n : Z) : Blinding Z :=
  ub <- get_unblinder ;;
  ret (mod_ (multiply t ub) n).

(** The two half-size exponentiations of [decrypt]. *)
Definition half_xp (m d p : Z) : Z :=
  modPow (mod_ m p) (mod_ d (subtract p ONE)) p.

Definition half_xq (m d q : Z) : Z :=
  modPow (mod_ m q) (mod_ d (subtract q ONE)) q.

(** The value of [t] in [decrypt] after the branch on [t[0] === 0] and
    before [t = t.multiply(p).add(xp)]. *)
Definition crt_t (xp xq u q : Z) : Z :=
  let t := subtract xq xp in
  if strict_eq_zero (subtract_limb0 DB xq xp) then
    let t := subtract xp xq in
    let t := mod_ (multiply t u) q in
    subtract q t
  else
    mod_ (multiply t u) q.

(** [decrypt] between blinding and unblinding. *)
Definition crt_combine (m d p q u : Z) : Z :=
  let xp := half_xp m d p in
  let xq := half_xq m d q in
  let t := crt_t xp xq u q in
  add (multiply t p) xp.

(** [function decrypt(m, n, e, d, p, q, u)]; the call of
    [util.print_debug] only writes to the diagnostic log. *)
Definition decrypt (m n e d p q u : Z) : Blinding Z :=
  m <- (if rsa_blinding config then blind m n e else ret m) ;;
  let t := crt_combine m d p q u in
  t <- (if rsa_blinding config then unblind t n else ret t) ;;
  ret t.

(** [function encrypt(m, e, n)] *)
Definition encrypt (m e n : Z) : Z := modPowInt m e n.

(** [function sign(m, d, n)] *)
Definition sign (m d n : Z) : Z := modPow m d n.

(** [function verify(x, e, n)] *)
Definition verify (x e n : Z) : Z := modPowInt x e n.

End Primitives.

Definition no_blinding : Config := {| rsa_blinding := false |}.
Definition with_blinding : Config := {| rsa_blinding := true |}.

Definition constant_source (r : Z) : nat -> Z -> Z -> Z := fun _ _ _ => r.

(** ** Outcome of a call

    A JavaScript call either returns a value or throws. *)

Inductive completion (A : Type) : Type :=
| Returns (v : A) : completion A
| Throws (reason : string) : completion A.
Arguments Returns {A} v.
Arguments Throws {A} reason.

(** ** Key material *)

Module keyObject.

(** [function keyObject()]: an object whose fields are [null] (here [None])
    until the generator fills them in, and whose [e] starts at [0]. *)
Record t : Type := mk {
  n : option Z;
  e : Z;
  ee : option Z;
  d : option Z;
  p : option Z;
  q : option Z;
  dmp1 : option Z;
  dmq1 : option Z;
  u : option Z
}.

Definition empty : t :=
  {| n := None; e := 0; ee := None; d := None; p := None; q := None;
     dmp1 := None; dmq1 := None; u := None |}.

End keyObject.

(** ** Key generation *)

(** What the completion callback receives: [callback(new Error(msg))]
    passes an error and no key, [callback(null, key)] passes [null] and a
    key. *)
Record invocation : Type := mkInvocation {
  err : option string;
  key : option keyObject.t
}.

(** The request object [keyGenOpt] handed to the platform key service. *)
Record KeyGenOpt : Type := mkKeyGenOpt {
  name : string;
  modulusLength : Z;
  publicExponent : list Z;
  hash : string
}.

(** A JSON Web Key as the platform exports it; a property that is missing
    reads as [undefined] (here [None]). *)
Record JWK : Type := mkJWK {
  jwk_n : option string;
  jwk_d : option string;
  jwk_p : option string;
  jwk_q : option string
}.

(** A promise of the platform: settled with a value, settled with a
    rejection, or never settled. *)
Inductive promise (A : Type) : Type :=
| Fulfilled (a : A) : promise A
| Rejected : promise A
| Pending : promise A.
Arguments Fulfilled {A} a.
Arguments Rejected {A}.
Arguments Pending {A}.

(** What a run of [generate] does that its environment can observe. *)
Inductive event : Type :=
| GenerateKey (opt : KeyGenOpt) (extractable : bool) (usages : list string)
| ExportKey (format : string)
| Callback (inv : invocation).

(** A handler's outcome together with the events it caused. *)
Definition Trace (A : Type) : Type := (A * list event)%type.

(** [promise.then(onFulfilled, onRejected)]: the handler matching the
    settled state runs; the derived promise takes up the promise the handler
    returns and is rejected when the handler throws; a promise that never
    settles runs no handler. *)
Definition then_ {A B : Type} (pr : promise A)
    (onFulfilled : A -> Trace (completion (promise B)))
    (onRejected : unit -> Trace (completion (promise B)))
  : Trace (promise B) :=
  let settle (r : Trace (completion (promise B))) : Trace (promise B) :=
    match fst r with
    | Returns pr' => (pr', snd r)
    | Throws _ => (Rejected, snd r)
    end in
  match pr with
  | Fulfilled a => settle (onFulfilled a)
  | Rejected => settle (onRejected tt)
  | Pending => (Pending, [])
  end.

(** Big-endian value of a byte array such as
    [new Uint8Array([0x01, 0x00, 0x01])]. *)
Definition big_endian (bytes : list Z) : Z :=
  fold_left (fun acc b => acc * 256 + b) bytes 0.

(** [ToInt32] followed by [>> 1], the meaning of [B >> 1] on a JavaScript
    number holding an integer. *)
Definition to_int32 (x : Z) : Z := (x + 2 ^ 31) mod 2 ^ 32 - 2 ^ 31.

Definition shift_right_1 (x : Z) : Z := Z.shiftr (to_int32 x) 1.

(** The collaborators of the in-process path that rsa.js reaches through
    jsbn.js, util.js and the language. *)
Record Library : Type := mkLibrary {
  (** [parseInt(E, 16)], a builtin. *)
  parseInt16 : string -> Z;
  (** [new BigInteger(s, 16)] of jsbn.js, the value of a hexadecimal
      string. *)
  BigInteger_of_hex : string -> Z;
  (** [util.hexstrdump] of util.js. *)
  hexstrdump : string -> string;
  (** The state of [SecureRandom], and [new BigInteger(bits, 1, rng)] of
      jsbn.js: a candidate of the requested bit length drawn from it. *)
  rng : Type;
  random_candidate : Z -> rng -> Z * rng;
  (** [x.isProbablePrime(t)] of jsbn.js, a probabilistic test. *)
  isProbablePrime : Z -> Z -> bool
}.

(** The platform key service [window.crypto.subtle]. *)
Record SubtleCrypto : Type := mkSubtleCrypto {
  CryptoKeyPair : Type;
  CryptoKey : Type;
  privateKey : CryptoKeyPair -> CryptoKey;
  generateKey : KeyGenOpt -> bool -> list string -> promise CryptoKeyPair;
  exportKey : string -> CryptoKey -> promise JWK
}.

Section Generate.

Import BigInteger.

Variable lib : Library.

(** The caller's callback: whether it throws on what it is handed. *)
Variable callback_throws : invocation -> bool.

(** One call [callback(...)]. *)
Definition callback (inv : invocation) : Trace (completion unit) :=
  (if callback_throws inv then Throws "thrown by the callback"%string
   else Returns tt,
   [Callback inv]).

(** [function base64(base64url)] inside [onExported]. *)
Definition base64_char (c : ascii) : ascii :=
  if Ascii.eqb c "-"%char then "+"%char
  else if Ascii.eqb c "_"%char then "/"%char
  else c.

Fixpoint base64 (base64url : string) : string :=
  match base64url with
  | EmptyString => EmptyString
  | String c rest => String (base64_char c) (base64 rest)
  end.

(** [function onError()]; it returns [undefined]. *)
Definition onError {B : Type} (undefined : B) (_ : unit)
  : Trace (completion (promise B)) :=
  let (c, evs) := callback {| err := Some "Generating key failed!"%string;
                              key := None |} in
  (match c with
   | Returns _ => Returns (Fulfilled undefined)
   | Throws r => Throws r
   end, evs).

(** [function onGenerated(key)]; the derived promise of the first [then]
    carries a key ([Some]) or the [undefined] that [onError] returns
    ([None]). *)
Definition onGenerated (subtle : SubtleCrypto) (k : CryptoKeyPair subtle)
  : Trace (completion (promise (option JWK))) :=
  (Returns (match exportKey subtle "jwk" (privateKey subtle k) with
            | Fulfilled jwk => Fulfilled (Some jwk)
            | Rejected => Rejected
            | Pending => Pending
            end),
   [ExportKey "jwk"]).

(** [new BigInteger(util.hexstrdump(base64(field)), 16)]; a missing field
    reads as [undefined], on which [replace] throws a [TypeError]. *)
Definition import_field (field : option string) : completion Z :=
  match field with
  | Some s => Returns (BigInteger_of_hex lib (hexstrdump lib (base64 s)))
  | None => Throws "TypeError"
  end.

(** [function onExported(jwk)]; reading [jwk.n] of [undefined] throws a
    [TypeError]. *)
Definition onExported (E : string) (jwk : option JWK)
  : Trace (completion (promise unit)) :=
  match jwk with
  | None => (Throws "TypeError", [])
  | Some j =>
      match import_field (jwk_n j), import_field (jwk_d j),
            import_field (jwk_p j), import_field (jwk_q j) with
      | Returns vn, Returns vd, Returns vp, Returns vq =>
          let k := {| keyObject.n := Some vn;
                      keyObject.e := 0;
                      keyObject.ee := Some (BigInteger_of_hex lib E);
                      keyObject.d := Some vd;
                      keyObject.p := Some vp;
                      keyObject.q := Some vq;
                      keyObject.dmp1 := None;
                      keyObject.dmq1 := None;
                      keyObject.u := Some (modInverse vp vq) |} in
          let (c, evs) := callback {| err := None; key := Some k |} in
          (match c with
           | Returns _ => Returns (Fulfilled tt)
           | Throws r => Throws r
           end, evs)
      | _, _, _, _ => (Throws "TypeError", [])
      end
  end.

(** [var keyGenOpt = {...}] of the native path. *)
Definition keyGenOpt (B : Z) (E : string) : KeyGenOpt :=
  {| name := "RSASSA-PKCS1-v1_5";
     modulusLength := B;
     publicExponent := [1; 0; 1];
     hash := "SHA-256" |}.

(** The native path of [generate]: the request, then the two [then]s. *)
Definition generate_native (subtle : SubtleCrypto) (B : Z) (E : string)
  : list event :=
  let opt := keyGenOpt B E in
  let extractable := true in
  let usages := ["sign"; "verify"]%string in
  let p0 := generateKey subtle opt extractable usages in
  let (p1, evs1) := then_ p0 (onGenerated subtle) (onError None) in
  let (p2, evs2) := then_ p1 (onExported E) (onError tt) in
  GenerateKey opt extractable usages :: evs1 ++ evs2.

(** The inner loops of the in-process path: draw candidates of [bits] bits
    until one has [gcd(c - 1, ee) = 1] and passes [isProbablePrime(10)];
    [fuel] bounds the number of draws. *)
Fixpoint draw_prime (fuel : nat) (bits eev : Z) (r : rng lib)
  : option (Z * rng lib) :=
  match fuel with
  | O => None
  | S fuel' =>
      let (c, r') := random_candidate lib bits r in
      if (compareTo (gcd (subtract c ONE) eev) ONE =? 0)
         && isProbablePrime lib c 10
      then Some (c, r')
      else draw_prime fuel' bits eev r'
  end.

(** The outer loop of the in-process path; [fuel] bounds the number of
    rounds of every loop. *)
Fixpoint search (fuel : nat) (B qs : Z) (k : keyObject.t) (eev : Z)
    (r : rng lib) : option keyObject.t :=
  match fuel with
  | O => None
  | S fuel' =>
      match draw_prime (S fuel') (B - qs) eev r with
      | None => None
      | Some (cp, r1) =>
          match draw_prime (S fuel') qs eev r1 with
          | None => None
          | Some (cq, r2) =>
              let (vp, vq) :=
                if compareTo cp cq <=? 0 then (cq, cp) else (cp, cq) in
              let p1 := subtract vp ONE in
              let q1 := subtract vq ONE in
              let phi := multiply p1 q1 in
              if compareTo (gcd phi eev) ONE =? 0 then
                let vd := modInverse eev phi in
                Some {| keyObject.n := Some (multiply vp vq);
                        keyObject.e := keyObject.e k;
                        keyObject.ee := keyObject.ee k;
                        keyObject.d := Some vd;
                        keyObject.p := Some vp;
                        keyObject.q := Some vq;
                        keyObject.dmp1 := Some (mod_ vd p1);
                        keyObject.dmq1 := Some (mod_ vd q1);
                        keyObject.u := Some (modInverse vp vq) |}
              else
                search fuel' B qs
                  {| keyObject.n := keyObject.n k;
                     keyObject.e := keyObject.e k;
                     keyObject.ee := keyObject.ee k;
                     keyObject.d := keyObject.d k;
                     keyObject.p := Some vp;
                     keyObject.q := Some vq;
                     keyObject.dmp1 := keyObject.dmp1 k;
                     keyObject.dmq1 := keyObject.dmq1 k;
                     keyObject.u := keyObject.u k |}
                  eev r2
          end
      end
  end.

(** The in-process path of [generate] up to its [callback(null, key)]. *)
Definition generate_js (fuel : nat) (B : Z) (E : string) (r : rng lib)
  : option keyObject.t :=
  let k := keyObject.empty in
  let qs := shift_right_1 B in
  let k := {| keyObject.n := keyObject.n k;
              keyObject.e := parseInt16 lib E;
              keyObject.ee := Some (BigInteger_of_hex lib E);
              keyObject.d := keyObject.d k;
              keyObject.p := keyObject.p k;
              keyObject.q := keyObject.q k;
              keyObject.dmp1 := keyObject.dmp1 k;
              keyObject.dmq1 := keyObject.dmq1 k;
              keyObject.u := keyObject.u k |} in
  search fuel B qs k (BigInteger_of_hex lib E) r.

(** [function generate(B, E, callback)].  [window] is
    [window.crypto.subtle] when the test at the head of the function finds
    it, and [None] otherwise.  The result lists what the call causes, in
    order; [None] stands for a search that outlasts [fuel]. *)
Definition generate (window : option SubtleCrypto) (fuel : nat)
    (B : Z) (E : string) (r : rng lib) : option (list event) :=
  match window with
  | Some subtle => Some (generate_native subtle B E)
  | None =>
      match generate_js fuel B E r with
      | None => None
      | Some k => Some (snd (callback {| err := None; key := Some k |}))
      end
  end.

End Generate.

(** The invocations of the callback in a run. *)
Fixpoint invocations (evs : list event) : list invocation :=
  match evs with
  | [] => []
  | Callback inv :: rest => inv :: invocations rest
  | _ :: rest => invocations rest
  end.

(** The key-generation requests of a run. *)
Fixpoint requests (evs : list event) : list KeyGenOpt :=
  match evs with
  | [] => []
  | GenerateKey opt _ _ :: rest => opt :: requests rest
  | _ :: rest => requests rest
  end.

(** ** Well-formed key material

    The invariants of section 3 of the specification, with the positivity
    of both exponents made explicit. *)

Record well_formed (n e d p q u : Z) : Prop := {
  wf_p_prime : Z.prime p;
  wf_q_prime : Z.prime q;
  wf_order : q < p;
  wf_modulus : n = p * q;
  wf_e_pos : 0 < e;
  wf_d_pos : 0 < d;
  wf_inverse : (d * e) mod ((p - 1) * (q - 1)) = 1;
  wf_coefficient : u = BigInteger.modInverse p q
}.

Arguments wf_p_prime {n e d p q u} _.
Arguments wf_q_prime {n e d p q u} _.
Arguments wf_order {n e d p q u} _.
Arguments wf_modulus {n e d p q u} _.
Arguments wf_e_pos {n e d p q u} _.
Arguments wf_d_pos {n e d p q u} _.
Arguments wf_inverse {n e d p q u} _.
Arguments wf_coefficient {n e d p q u} _.

(** Trial division, used to discharge primality of concrete moduli. *)
Definition no_divisor_below (p : Z) (k : nat) : bool :=
  forallb (fun i => negb (p mod (Z.of_nat i + 2) =? 0)) (seq 0 k).

Definition is_prime (p : Z) : bool :=
  (1 <? p) && no_divisor_below p (Z.to_nat (p - 2)).

(** ** Sequences of blinded calls *)

(** The state left by a sequence of earlier calls of [blind], each with its
    own message, modulus and exponent (the shared variables outlive the key
    they were computed for). *)
Fixpoint refreshes (source : nat -> Z -> Z -> Z) (calls : list (Z * Z * Z))
    (s : State) : State :=
  match calls with
  | [] => s
  | (m, n, e) :: rest => refreshes source rest (snd (blind source m n e s))
  end.

(** ** Concrete collaborators

    Instances of the external collaborators on which the embedding is run:
    a hexadecimal reader, a random source that replays a list of candidates,
    and a primality test by trial division. *)

Definition hex_digit (c : ascii) : option Z :=
  let k := Z.of_nat (nat_of_ascii c) in
  if (48 <=? k) && (k <=? 57) then Some (k - 48)
  else if (97 <=? k) && (k <=? 102) then Some (k - 87)
  else if (65 <=? k) && (k <=? 70) then Some (k - 55)
  else None.

Fixpoint hex_value_from (acc : Z) (s : string) : Z :=
  match s with
  | EmptyString => acc
  | String c rest =>
      match hex_digit c with
      | Some v => hex_value_from (acc * 16 + v) rest
      | None => hex_value_from acc rest
      end
  end.

Definition hex_value (s : string) : Z := hex_value_from 0 s.

(** A random source replaying a list; once the list is used up it keeps
    answering [0], which no test accepts. *)
Definition replay (bits : Z) (tape : list Z) : Z * list Z :=
  match tape with
  | [] => (0, [])
  | c :: rest => (c, rest)
  end.

Definition trial_division (x certainty : Z) : bool := is_prime x.

Definition toy_library : Library :=
  {| parseInt16 := hex_value;
     BigInteger_of_hex := hex_value;
     hexstrdump := fun s => s;
     rng := list Z;
     random_candidate := replay;
     isProbablePrime := trial_division |}.

(** The same collaborators with a primality test that accepts every
    candidate, as a probabilistic test may. *)
Definition credulous_library : Library :=
  {| parseInt16 := hex_value;
     BigInteger_of_hex := hex_value;
     hexstrdump := fun s => s;
     rng := list Z;
     random_candidate := replay;
     isProbablePrime := fun _ _ => true |}.

(** A platform whose key creation is rejected. *)
Definition rejecting_platform : SubtleCrypto :=
  {| CryptoKeyPair := unit;
     CryptoKey := unit;
     privateKey := fun k => k;
     generateKey := fun _ _ _ => Rejected;
     exportKey := fun _ _ => Rejected |}.

(** What [search] establishes about the key it returns, for the exponent
    [eev] it was given. *)
Definition search_result (eev : Z) (k : keyObject.t) : Prop :=
  exists vp vq,
    keyObject.p k = Some vp /\ keyObject.q k = Some vq /\
    Z.prime vp /\ Z.prime vq /\ vq <= vp /\
    Z.gcd (vp - 1) eev = 1 /\ Z.gcd (vq - 1) eev = 1 /\
    Z.gcd ((vp - 1) * (vq - 1)) eev = 1 /\
    keyObject.n k = Some (vp * vq) /\
    keyObject.d k = Some (BigInteger.modInverse eev ((vp - 1) * (vq - 1))) /\
    keyObject.dmp1 k
    = Some (BigInteger.modInverse eev ((vp - 1) * (vq - 1)) mod (vp - 1)) /\
    keyObject.dmq1 k
    = Some (BigInteger.modInverse eev ((vp - 1) * (vq - 1)) mod (vq - 1)) /\
    keyObject.u k = Some (BigInteger.modInverse vp vq).

(** A callback in the style [function (err, key) { if (err) throw err; }],
    and one that always returns. *)
Definition rethrowing_callback (inv : invocation) : bool :=
  match err inv with
  | Some _ => true
  | None => false
  end.

Definition quiet_callback (inv : invocation) : bool := false.

(** ** The random byte source

    [function SecureRandom()] wraps [random.getSecureRandomOctet] of
    crypto/random.js, an external collaborator: [octet k] is the value of
    its [k]-th call. *)

(** [byteArray[n] = v] for an index inside the array. *)
Fixpoint store (n : nat) (v : Z) (byteArray : list Z) : list Z :=
  match byteArray, n with
  | [], _ => []
  | _ :: rest, O => v :: rest
  | b :: rest, S n' => b :: store n' v rest
  end.

(** The loop of [nextBytes] from index [n] on, [k] octets having been
    drawn so far; [fuel] bounds its rounds. *)
Fixpoint nextBytes_from (octet : nat -> Z) (fuel n : nat)
    (byteArray : list Z) (k : nat) : list Z * nat :=
  match fuel with
  | O => (byteArray, k)
  | S fuel' =>
      if (n <? List.length byteArray)%nat
      then nextBytes_from octet fuel' (S n) (store n (octet k) byteArray) (S k)
      else (byteArray, k)
  end.

(** [function nextBytes(byteArray)]: the array after the call, and the
    number of octets drawn by then. *)
Definition nextBytes (octet : nat -> Z) (byteArray : list Z) (k : nat)
  : list Z * nat :=
  nextBytes_from octet (List.length byteArray) 0%nat byteArray k.

(** ** More concrete collaborators *)

(** A platform that creates a key and exports the toy key. *)
Definition toy_platform : SubtleCrypto :=
  {| CryptoKeyPair := unit;
     CryptoKey := unit;
     privateKey := fun k => k;
     generateKey := fun _ _ _ => Fulfilled tt;
     exportKey := fun _ _ =>
       Fulfilled {| jwk_n := Some "8f"%string; jwk_d := Some "67"%string;
                    jwk_p := Some "0d"%string; jwk_q := Some "0b"%string |} |}.

(** A platform whose export lacks the private exponent. *)
Definition partial_platform : SubtleCrypto :=
  {| CryptoKeyPair := unit;
     CryptoKey := unit;
     privateKey := fun k => k;
     generateKey := fun _ _ _ => Fulfilled tt;
     exportKey := fun _ _ =>
       Fulfilled {| jwk_n := Some "8f"%string; jwk_d := None;
                    jwk_p := Some "0d"%string; jwk_q := Some "0b"%string |} |}.

(** A platform that creates a key and rejects its export. *)
Definition export_rejecting_platform : SubtleCrypto :=
  {| CryptoKeyPair := unit;
     CryptoKey := unit;
     privateKey := fun k => k;
     generateKey := fun _ _ _ => Fulfilled tt;
     exportKey := fun _ _ => Rejected |}.

(** The failure that [onError] reports. *)
Definition failure : invocation :=
  {| err := Some "Generating key failed!"%string; key := None |}.

(** [new BigInteger(util.hexstrdump(base64(s)), 16)] as [onExported]
    applies it to a field of the exported key. *)
Definition import_value (lib : Library) (s : string) : Z :=
  BigInteger_of_hex lib (hexstrdump lib (base64 s)).

(** ** Modular arithmetic behind the CRT path *)

Section NumberTheory.

Lemma pow_fermat_multiple p a k :
  Z.prime p -> a mod p <> 0 -> 0 <= k -> a ^ ((p - 1) * k) mod p = 1.
Proof.
  intros Hp Ha Hk.
  pose proof (Z.prime_ge_2 _ Hp) as Hp2.
  rewrite Z.pow_mul_r by lia.
  rewrite <- Z.mod_pow_l, (Z.fermat_nz p a Hp Ha), Z.pow_1_l by lia.
  apply Z.mod_1_l; lia.
Qed.

Lemma pow_reduce_exponent p a k r :
  Z.prime p -> a mod p <> 0 -> 0 <= k -> 0 <= r ->
  a ^ ((p - 1) * k + r) mod p = a ^ r mod p.
Proof.
  intros Hp Ha Hk Hr.
  pose proof (Z.prime_ge_2 _ Hp) as Hp2.
  rewrite Z.pow_add_r by nia.
  rewrite Z.mul_mod, pow_fermat_multiple by (auto; lia).
  rewrite Z.mul_1_l, Z.mod_mod by lia. reflexivity.
Qed.

Lemma pow_zero_base_mod p a r :
  0 < r -> a mod p = 0 -> a ^ r mod p = 0.
Proof.
  intros Hr Ha.
  rewrite <- Z.mod_pow_l, Ha, Z.pow_0_l by lia.
  apply Zmod_0_l.
Qed.

Lemma cong_coprime_product p q a b :
  Z.coprime p q -> a mod p = b mod p -> a mod q = b mod q ->
  a mod (p * q) = b mod (p * q).
Proof.
  intros Hc Hp Hq.
  apply Z.cong_iff_ex in Hp. destruct Hp as [i Hi].
  apply Z.cong_iff_ex in Hq. destruct Hq as [j Hj].
  apply Z.cong_iff_ex.
  assert (Hd : (q | i * p)) by (exists j; lia).
  rewrite Z.mul_comm in Hd.
  apply Z.gauss in Hd; [| unfold Z.coprime in Hc; rewrite Z.gcd_comm; exact Hc].
  destruct Hd as [c Hcq]. exists c. rewrite Hi, Hcq. ring.
Qed.

Lemma prime_distinct_coprime p q :
  Z.prime p -> Z.prime q -> q < p -> Z.coprime p q.
Proof.
  intros Hp Hq Hlt.
  apply Z.coprime_prime_l; [exact Hp|].
  intros Hd. apply Z.divide_prime_prime in Hd; auto. lia.
Qed.

Lemma exponent_residue_nonzero p q d e :
  2 < p -> 0 < q - 1 -> (d * e) mod ((p - 1) * (q - 1)) = 1 ->
  d mod (p - 1) <> 0.
Proof.
  intros Hp Hq Hde Hz.
  apply Z.mod_divide in Hz; [| lia].
  destruct Hz as [j Hj].
  pose proof (Z.div_mod (d * e) ((p - 1) * (q - 1))) as Hdm.
  rewrite Hde in Hdm.
  assert (Hone : (p - 1 | 1)).
  { exists (j * e - (q - 1) * ((d * e) / ((p - 1) * (q - 1)))).
    rewrite Hj in Hdm at 1. nia. }
  apply Z.divide_1_r in Hone. lia.
Qed.

End NumberTheory.

(** ** The CRT combination *)

Section CRT.

Variable DB : Z.

Lemma half_xp_spec p d m :
  Z.prime p -> 2 < p -> 0 < d -> d mod (p - 1) <> 0 ->
  half_xp m d p = m ^ d mod p.
Proof.
  intros Hp Hp2 Hd Hr.
  unfold half_xp. to_Z.
  assert (Hrange : 0 <= d mod (p - 1) < p - 1) by (apply Z.mod_pos_bound; lia).
  destruct (Z.eq_dec (m mod p) 0) as [Hz | Hnz].
  - rewrite Hz, Z.pow_0_l by lia.
    rewrite Zmod_0_l. symmetry. apply pow_zero_base_mod; assumption.
  - rewrite Z.mod_pow_l.
    rewrite (Z.div_mod d (p - 1)) at 2 by lia.
    symmetry. apply pow_reduce_exponent; try assumption; try lia.
    apply Z.div_pos; lia.
Qed.

Lemma half_xq_spec q d m :
  Z.prime q -> 2 < q -> 0 < d -> d mod (q - 1) <> 0 ->
  half_xq m d q = m ^ d mod q.
Proof. exact (half_xp_spec q d m). Qed.

Lemma crt_t_cong xp xq u q :
  0 < q -> crt_t DB xp xq u q mod q = ((xq - xp) * u) mod q.
Proof.
  intros Hq. unfold crt_t. to_Z.
  destruct (strict_eq_zero (BigInteger.subtract_limb0 DB xq xp)).
  - apply Z.cong_iff_ex.
    exists (1 + (xp - xq) * u / q).
    pose proof (Z.div_mod ((xp - xq) * u) q ltac:(lia)) as Hdm.
    lia.
  - apply Z.mod_mod; lia.
Qed.

Lemma crt_t_range xp xq u q :
  0 < q -> 0 <= crt_t DB xp xq u q <= q.
Proof.
  intros Hq. unfold crt_t. to_Z.
  pose proof (Z.mod_pos_bound ((xp - xq) * u) q Hq).
  pose proof (Z.mod_pos_bound ((xq - xp) * u) q Hq).
  destruct (strict_eq_zero (BigInteger.subtract_limb0 DB xq xp)); lia.
Qed.

(** Outside the borrowed branch the coefficient is the normalised one. *)
Lemma crt_t_plain xp xq u q :
  strict_eq_zero (BigInteger.subtract_limb0 DB xq xp) = false ->
  crt_t DB xp xq u q = ((xq - xp) * u) mod q.
Proof.
  intros Hb. unfold crt_t. rewrite Hb. reflexivity.
Qed.

(** In the borrowed branch the coefficient is [q] itself exactly when the
    product it negates is a multiple of [q]. *)
Lemma crt_t_borrowed xp xq u q :
  0 < q ->
  strict_eq_zero (BigInteger.subtract_limb0 DB xq xp) = true ->
  crt_t DB xp xq u q =
    if ((xq - xp) * u) mod q =? 0 then q else ((xq - xp) * u) mod q.
Proof.
  intros Hq Hb. unfold crt_t. rewrite Hb.
  to_Z.
  pose proof (Z.div_mod ((xp - xq) * u) q ltac:(lia)) as H1.
  pose proof (Z.div_mod ((xq - xp) * u) q ltac:(lia)) as H2.
  pose proof (Z.mod_pos_bound ((xp - xq) * u) q Hq) as B1.
  pose proof (Z.mod_pos_bound ((xq - xp) * u) q Hq) as B2.
  set (k1 := (xp - xq) * u / q) in *. set (k2 := (xq - xp) * u / q) in *.
  set (r1 := ((xp - xq) * u) mod q) in *.
  set (r2 := ((xq - xp) * u) mod q) in *.
  assert (Hsum : r1 + r2 = q * (- (k1 + k2))) by lia.
  assert (Hk : - (k1 + k2) = 0 \/ - (k1 + k2) = 1) by nia.
  destruct (Z.eqb_spec r2 0) as [Hz | Hnz]; destruct Hk as [Hk | Hk];
    rewrite Hk in Hsum; lia.
Qed.

Lemma modInverse_spec a m :
  2 <= m -> Z.coprime a m -> (BigInteger.modInverse a m * a) mod m = 1.
Proof.
  intros Hm Hc. unfold BigInteger.modInverse.
  unfold Z.coprime in Hc. rewrite Hc. simpl.
  apply Z.invmod_coprime; assumption.
Qed.

End CRT.

(** ** Consequences of well-formedness *)

Section Correctness.

Variable DB : Z.
Variables n e d p q u : Z.
Hypothesis WF : well_formed n e d p q u.

Lemma wf_q_ge_2 : 2 <= q.
Proof. apply Z.prime_ge_2, WF. Qed.

Lemma wf_p_gt_2 : 2 < p.
Proof. pose proof wf_q_ge_2. pose proof (wf_order WF). lia. Qed.

Lemma wf_coprime : Z.coprime p q.
Proof. apply prime_distinct_coprime; apply WF. Qed.

Lemma wf_n_pos : 0 < n.
Proof.
  pose proof wf_q_ge_2. pose proof wf_p_gt_2.
  rewrite (wf_modulus WF). nia.
Qed.

Lemma wf_u_inverse : (u * p) mod q = 1.
Proof.
  rewrite (wf_coefficient WF).
  apply modInverse_spec; [apply wf_q_ge_2 | apply wf_coprime].
Qed.

Lemma wf_dp_nonzero : d mod (p - 1) <> 0.
Proof.
  pose proof wf_q_ge_2. pose proof wf_p_gt_2.
  destruct (Z.eq_dec q 2) as [-> | Hq].
  - pose proof (wf_inverse WF) as Hde.
    replace ((p - 1) * (2 - 1)) with ((p - 1) * 1) in Hde by lia.
    intros Hz. apply Z.mod_divide in Hz; [| lia]. destruct Hz as [j Hj].
    rewrite Z.mul_1_r in Hde.
    rewrite Hj in Hde.
    replace (j * (p - 1) * e) with ((j * e) * (p - 1)) in Hde by ring.
    rewrite Z.mod_mul in Hde by lia. discriminate.
  - apply (exponent_residue_nonzero p q d e); try lia. apply WF.
Qed.

Lemma wf_dq_nonzero : 2 < q -> d mod (q - 1) <> 0.
Proof.
  intros Hq. pose proof wf_p_gt_2.
  apply (exponent_residue_nonzero q p d e); try lia.
  rewrite (Z.mul_comm (q - 1)). apply WF.
Qed.

Lemma crt_combine_mod_p m :
  crt_combine DB m d p q u mod p = m ^ d mod p.
Proof.
  pose proof wf_p_gt_2.
  unfold crt_combine. to_Z.
  rewrite Z.add_comm, Z.mod_add by lia.
  rewrite half_xp_spec;
    [ apply Z.mod_mod; lia | apply WF | lia | apply WF | apply wf_dp_nonzero ].
Qed.

Lemma crt_combine_mod_q m :
  2 < q -> crt_combine DB m d p q u mod q = m ^ d mod q.
Proof.
  intros Hq.
  unfold crt_combine. to_Z.
  set (xp := half_xp m d p). set (xq := half_xq m d q).
  rewrite <- Z.add_mod_idemp_l, <- Z.mul_mod_idemp_l by lia.
  rewrite crt_t_cong by lia.
  rewrite Z.mul_mod_idemp_l, Z.add_mod_idemp_l by lia.
  replace ((xq - xp) * u * p + xp) with ((xq - xp) * (u * p) + xp) by ring.
  rewrite <- Z.add_mod_idemp_l, <- Z.mul_mod_idemp_r by lia.
  rewrite wf_u_inverse, Z.mul_1_r, Z.add_mod_idemp_l by lia.
  replace (xq - xp + xp) with xq by ring.
  subst xq. rewrite half_xq_spec;
    [ apply Z.mod_mod; lia | apply WF | lia | apply WF
    | apply wf_dq_nonzero; lia ].
Qed.

(** The value rebuilt by the CRT path is congruent to [m^d] modulo [n]. *)
Lemma crt_combine_cong m :
  2 < q -> crt_combine DB m d p q u mod n = m ^ d mod n.
Proof.
  intros Hq. rewrite (wf_modulus WF).
  apply cong_coprime_product;
    [ apply wf_coprime | apply crt_combine_mod_p | apply crt_combine_mod_q, Hq ].
Qed.

(** It lies below [2 n], and below [n] unless the coefficient is [q]. *)
Lemma crt_combine_range m :
  0 <= crt_combine DB m d p q u < 2 * n.
Proof.
  pose proof wf_q_ge_2. pose proof wf_p_gt_2.
  unfold crt_combine. to_Z.
  pose proof (crt_t_range DB (half_xp m d p) (half_xq m d q) u q ltac:(lia)).
  assert (0 <= half_xp m d p < p)
    by (unfold half_xp, BigInteger.modPow; apply Z.mod_pos_bound; lia).
  rewrite (wf_modulus WF). nia.
Qed.

Lemma crt_combine_exact m :
  2 < q ->
  crt_t DB (half_xp m d p) (half_xq m d q) u q < q ->
  crt_combine DB m d p q u = m ^ d mod n.
Proof.
  intros Hq Ht. pose proof wf_p_gt_2.
  rewrite <- (crt_combine_cong m Hq). symmetry. apply Z.mod_small.
  unfold crt_combine. to_Z.
  pose proof (crt_t_range DB (half_xp m d p) (half_xq m d q) u q ltac:(lia)).
  assert (0 <= half_xp m d p < p)
    by (unfold half_xp, BigInteger.modPow; apply Z.mod_pos_bound; lia).
  rewrite (wf_modulus WF). nia.
Qed.

Lemma rsa_identity_mod_prime x r s :
  Z.prime r -> 0 < d * e -> (d * e) mod ((r - 1) * s) = 1 -> 0 < s ->
  x ^ (d * e) mod r = x mod r.
Proof.
  intros Hr Hpos Hde Hs.
  pose proof (Z.prime_ge_2 _ Hr).
  destruct (Z.eq_dec (x mod r) 0) as [Hz | Hnz].
  - rewrite Hz. apply pow_zero_base_mod; assumption.
  - rewrite (Z.div_mod (d * e) ((r - 1) * s)) by nia.
    rewrite Hde.
    replace ((r - 1) * s * (d * e / ((r - 1) * s)) + 1)
      with ((r - 1) * (s * (d * e / ((r - 1) * s))) + 1) by ring.
    rewrite pow_reduce_exponent; try assumption; try lia.
    + rewrite Z.pow_1_r. reflexivity.
    + apply Z.mul_nonneg_nonneg; [lia |]. apply Z.div_pos; nia.
Qed.

(** Raising to [d e] is the identity modulo [n], for every base. *)
Lemma rsa_identity x : x ^ (d * e) mod n = x mod n.
Proof.
  pose proof wf_q_ge_2. pose proof wf_p_gt_2.
  pose proof (wf_e_pos WF). pose proof (wf_d_pos WF).
  rewrite (wf_modulus WF).
  apply cong_coprime_product.
  - apply wf_coprime.
  - apply (rsa_identity_mod_prime x p (q - 1));
      [apply WF | nia | apply WF | lia].
  - apply (rsa_identity_mod_prime x q (p - 1)); [apply WF | nia | | lia].
    rewrite (Z.mul_comm (q - 1)). apply WF.
Qed.

End Correctness.

Arguments wf_q_ge_2 {n e d p q u} WF.
Arguments wf_p_gt_2 {n e d p q u} WF.
Arguments wf_coprime {n e d p q u} WF.
Arguments wf_n_pos {n e d p q u} WF.
Arguments wf_u_inverse {n e d p q u} WF.
Arguments wf_dp_nonzero {n e d p q u} WF.
Arguments wf_dq_nonzero {n e d p q u} WF _.
Arguments crt_combine_cong DB {n e d p q u} WF m _.
Arguments crt_combine_range DB {n e d p q u} WF m.
Arguments crt_combine_exact DB {n e d p q u} WF m _ _.
Arguments rsa_identity {n e d p q u} WF x.

(** ** Trial division is sound *)

Lemma no_divisor_below_spec p k :
  no_divisor_below p k = true ->
  forall i, 2 <= i < Z.of_nat k + 2 -> p mod i <> 0.
Proof.
  unfold no_divisor_below. rewrite forallb_forall. intros Hall i Hi Hz.
  specialize (Hall (Z.to_nat (i - 2))).
  rewrite in_seq in Hall.
  assert (Hin : (0 <= Z.to_nat (i - 2) < 0 + k)%nat) by lia.
  apply Hall in Hin. rewrite Z2Nat.id in Hin by lia.
  replace (i - 2 + 2) with i in Hin by lia.
  rewrite Hz in Hin. discriminate.
Qed.

Lemma is_prime_sound p : is_prime p = true -> Z.prime p.
Proof.
  unfold is_prime. rewrite andb_true_iff, Z.ltb_lt. intros [Hgt Hnd].
  split; [exact Hgt |].
  intros i Hi Hdiv.
  apply (no_divisor_below_spec _ _ Hnd i); [lia |].
  apply Z.mod_divide; [lia | exact Hdiv].
Qed.

(** The toy key of section 8 of the specification, ordered with [p > q]. *)
Lemma toy_key_well_formed : well_formed 143 7 103 13 11 6.
Proof.
  constructor; try lia; try reflexivity;
    apply is_prime_sound; vm_compute; reflexivity.
Qed.

(** ** Decryption *)

Section Decrypt.

Variable DB : Z.
Variable source : nat -> Z -> Z -> Z.

Lemma decrypt_unblinded m n e d p q u s :
  decrypt DB no_blinding source m n e d p q u s
  = (crt_combine DB m d p q u, s).
Proof. reflexivity. Qed.

Lemma blind_value m n e s :
  fst (blind source m n e s)
  = (m * blinder (snd (blind source m n e s))) mod n.
Proof.
  unfold blind, bind, get_unblinder, get_blinder, set_unblinder, set_blinder,
    ret, random_in_range.
  destruct (BigInteger.bitLength (unblinder s) =? BigInteger.bitLength n);
    reflexivity.
Qed.

Lemma blind_blinder m n e s :
  blinder (snd (blind source m n e s))
  = BigInteger.modInverse (unblinder (snd (blind source m n e s))) n ^ e mod n.
Proof.
  unfold blind, bind, get_unblinder, get_blinder, set_unblinder, set_blinder,
    ret, random_in_range.
  destruct (BigInteger.bitLength (unblinder s) =? BigInteger.bitLength n);
    reflexivity.
Qed.

(** The refreshed unblinder: the square of the old one when the bit lengths
    agree, a fresh draw otherwise. *)
Lemma blind_unblinder m n e s :
  unblinder (snd (blind source m n e s))
  = if BigInteger.bitLength (unblinder s) =? BigInteger.bitLength n
    then (unblinder s * unblinder s) mod n
    else source (draws s) 2 n.
Proof.
  unfold blind, bind, get_unblinder, get_blinder, set_unblinder, set_blinder,
    ret, random_in_range.
  destruct (BigInteger.bitLength (unblinder s) =? BigInteger.bitLength n);
    reflexivity.
Qed.

Lemma decrypt_blinded m n e d p q u s :
  decrypt DB with_blinding source m n e d p q u s
  = let c := fst (blind source m n e s) in
    let s' := snd (blind source m n e s) in
    ((crt_combine DB c d p q u * unblinder s') mod n, s').
Proof.
  unfold decrypt, bind. simpl.
  destruct (blind source m n e s) as [c s']. reflexivity.
Qed.

Section WithKey.

Variables n e d p q u : Z.
Hypothesis WF : well_formed n e d p q u.

(** Unmasking any value congruent to the private operation applied to the
    masked message gives the private operation applied to the message. *)
Lemma unmask_private m s x :
  Z.coprime (unblinder (snd (blind source m n e s))) n ->
  x mod n = fst (blind source m n e s) ^ d mod n ->
  (x * unblinder (snd (blind source m n e s))) mod n = m ^ d mod n.
Proof.
  intros Hc Hx.
  pose proof (wf_n_pos WF) as Hn.
  pose proof (wf_q_ge_2 WF) as Hq.
  pose proof (wf_p_gt_2 WF) as Hp.
  pose proof (wf_e_pos WF) as He.
  pose proof (wf_d_pos WF) as Hd.
  assert (Hn2 : 2 <= n) by (rewrite (wf_modulus WF); nia).
  set (s' := snd (blind source m n e s)) in *.
  set (r := unblinder s') in *.
  set (ri := BigInteger.modInverse r n).
  rewrite <- Z.mul_mod_idemp_l, Hx by lia.
  rewrite blind_value, blind_blinder. fold s'. fold r. fold ri.
  rewrite Z.mod_pow_l.
  rewrite Z.mul_mod_idemp_l by lia.
  rewrite Z.pow_mul_l.
  rewrite <- Z.mul_assoc, <- Z.mul_mod_idemp_r by lia.
  rewrite <- (Z.mul_mod_idemp_l ((ri ^ e mod n) ^ d)) by lia.
  rewrite Z.mod_pow_l, <- Z.pow_mul_r by lia.
  rewrite (Z.mul_comm e d), (rsa_identity WF).
  rewrite Z.mul_mod_idemp_l by lia.
  unfold ri. rewrite (modInverse_spec r n Hn2 Hc).
  rewrite Z.mul_1_r. reflexivity.
Qed.

(** With blinding enabled and a refreshed unblinder coprime to the modulus,
    [decrypt] returns [m^d mod n]. *)
Lemma decrypt_blinded_exact m s :
  2 < q ->
  Z.coprime (unblinder (snd (blind source m n e s))) n ->
  fst (decrypt DB with_blinding source m n e d p q u s) = m ^ d mod n.
Proof.
  intros Hq Hc. rewrite decrypt_blinded. simpl.
  apply unmask_private; [exact Hc |].
  apply (crt_combine_cong DB WF); exact Hq.
Qed.

(** With blinding disabled the result is [m^d mod n], or exceeds it by
    [n]. *)
Lemma decrypt_unblinded_cases m s :
  2 < q ->
  fst (decrypt DB no_blinding source m n e d p q u s) = m ^ d mod n \/
  fst (decrypt DB no_blinding source m n e d p q u s) = n + m ^ d mod n.
Proof.
  intros Hq. rewrite decrypt_unblinded. simpl.
  pose proof (wf_n_pos WF) as Hn.
  pose proof (crt_combine_cong DB WF m Hq) as Hcong.
  pose proof (crt_combine_range DB WF m) as Hr.
  pose proof (Z.mod_pos_bound (m ^ d) n Hn) as Hb.
  rewrite <- (Z.mod_mod (m ^ d) n) in Hcong by lia.
  apply Z.cong_iff_ex in Hcong. destruct Hcong as [k Hk].
  assert (k = 0 \/ k = 1) by nia.
  nia.
Qed.

(** It is exact whenever the borrowed branch is not taken. *)
Lemma decrypt_unblinded_plain_branch m s :
  2 < q ->
  strict_eq_zero
    (BigInteger.subtract_limb0 DB (half_xq m d q) (half_xp m d p)) = false ->
  fst (decrypt DB no_blinding source m n e d p q u s) = m ^ d mod n.
Proof.
  intros Hq Hb. rewrite decrypt_unblinded. simpl.
  apply (crt_combine_exact DB WF); [exact Hq |].
  rewrite crt_t_plain by exact Hb.
  apply Z.mod_pos_bound. pose proof (wf_q_ge_2 WF). lia.
Qed.

End WithKey.

End Decrypt.

Arguments unmask_private source {n e d p q u} WF m s x _ _.
Arguments decrypt_blinded_exact DB source {n e d p q u} WF m s _ _.
Arguments decrypt_unblinded_cases DB source {n e d p q u} WF m s _.
Arguments decrypt_unblinded_plain_branch DB source {n e d p q u} WF m s _ _.

(** ** Round trips *)

Section RoundTrips.

Variables n e d p q u : Z.
Hypothesis WF : well_formed n e d p q u.

Lemma private_after_public m : 0 <= m < n -> (m ^ e mod n) ^ d mod n = m.
Proof.
  intros Hm.
  pose proof (wf_e_pos WF). pose proof (wf_d_pos WF).
  rewrite Z.mod_pow_l, <- Z.pow_mul_r, (Z.mul_comm e d) by lia.
  rewrite (rsa_identity WF). apply Z.mod_small; exact Hm.
Qed.

Lemma public_after_private m : 0 <= m < n -> (m ^ d mod n) ^ e mod n = m.
Proof.
  intros Hm.
  pose proof (wf_e_pos WF). pose proof (wf_d_pos WF).
  rewrite Z.mod_pow_l, <- Z.pow_mul_r by lia.
  rewrite (rsa_identity WF). apply Z.mod_small; exact Hm.
Qed.

(** Encrypting and then decrypting with blinding enabled gives the message
    back, as long as the refreshed unblinder is coprime to the modulus. *)
Lemma encrypt_decrypt_blinded DB source m s :
  2 < q -> 0 <= m < n ->
  Z.coprime (unblinder (snd (blind source (encrypt m e n) n e s))) n ->
  fst (decrypt DB with_blinding source (encrypt m e n) n e d p q u s) = m.
Proof.
  intros Hq Hm Hc.
  rewrite (decrypt_blinded_exact DB source WF) by assumption.
  apply private_after_public; exact Hm.
Qed.

(** With blinding disabled the same holds whenever the borrowed branch is
    not taken. *)
Lemma encrypt_decrypt_plain_branch DB source m s :
  2 < q -> 0 <= m < n ->
  strict_eq_zero
    (BigInteger.subtract_limb0 DB (half_xq (encrypt m e n) d q)
       (half_xp (encrypt m e n) d p)) = false ->
  fst (decrypt DB no_blinding source (encrypt m e n) n e d p q u s) = m.
Proof.
  intros Hq Hm Hb.
  rewrite (decrypt_unblinded_plain_branch DB source WF)
    by assumption.
  apply private_after_public; exact Hm.
Qed.

(** A coefficient below [q] is all the CRT path needs. *)
Lemma crt_t_below_q DB xp xq :
  ((xq - xp) * u) mod q <> 0 -> crt_t DB xp xq u q < q.
Proof.
  intros Hnz. pose proof (wf_q_ge_2 WF) as Hq.
  pose proof (Z.mod_pos_bound ((xq - xp) * u) q ltac:(lia)) as Hb.
  destruct (strict_eq_zero (BigInteger.subtract_limb0 DB xq xp)) eqn:Hs.
  - rewrite crt_t_borrowed by (assumption || lia).
    destruct (Z.eqb_spec (((xq - xp) * u) mod q) 0); [contradiction | lia].
  - rewrite crt_t_plain by assumption. lia.
Qed.

(** The two boundary messages survive the round trip with blinding
    disabled: for [0] both halves are zero and limb [0] of their
    difference is [undefined]; for [n - 1] the halves differ modulo [q]. *)
Lemma boundary_round_trip DB source s :
  2 < q ->
  fst (decrypt DB no_blinding source (encrypt 0 e n) n e d p q u s) = 0 /\
  fst (decrypt DB no_blinding source (encrypt (n - 1) e n) n e d p q u s)
  = n - 1.
Proof.
  intros Hq.
  pose proof (wf_p_gt_2 WF) as Hp.
  pose proof (wf_n_pos WF) as Hn.
  pose proof (wf_e_pos WF) as He.
  pose proof (wf_d_pos WF) as Hd.
  pose proof (wf_modulus WF) as Hmod.
  assert (Hn1 : 0 <= n - 1 < n) by lia.
  assert (Hxp : forall m, 0 <= m < n ->
                  half_xp (encrypt m e n) d p = m mod p).
  { intros m Hm.
    rewrite half_xp_spec;
      [| apply WF | lia | lia | apply (wf_dp_nonzero WF)].
    rewrite <- (Z.mod_mod_divide _ n p) by (exists q; lia).
    unfold encrypt. to_Z.
    rewrite private_after_public by exact Hm. reflexivity. }
  assert (Hxq : forall m, 0 <= m < n ->
                  half_xq (encrypt m e n) d q = m mod q).
  { intros m Hm.
    rewrite half_xq_spec;
      [| apply WF | lia | lia | apply (wf_dq_nonzero WF); lia].
    rewrite <- (Z.mod_mod_divide _ n q) by (exists p; lia).
    unfold encrypt. to_Z.
    rewrite private_after_public by exact Hm. reflexivity. }
  split.
  - apply encrypt_decrypt_plain_branch; [exact Hq | lia |].
    rewrite Hxp, Hxq by lia. rewrite !Zmod_0_l. reflexivity.
  - rewrite decrypt_unblinded. cbn [fst].
    assert (Hnz : ((half_xq (encrypt (n - 1) e n) d q
                    - half_xp (encrypt (n - 1) e n) d p) * u) mod q <> 0).
    { rewrite Hxp, Hxq by exact Hn1.
      replace (n - 1) with (p - 1 + (q - 1) * p) at 2 by lia.
      rewrite Z.mod_add by lia.
      replace (n - 1) with (q - 1 + (p - 1) * q) by lia.
      rewrite Z.mod_add by lia.
      rewrite (Z.mod_small (p - 1) p), (Z.mod_small (q - 1) q) by lia.
      replace ((q - 1 - (p - 1)) * u) with (- (u * p) + u * q) by ring.
      rewrite Z.mod_add by lia.
      intros Hz. apply Z.mod_opp_l_z in Hz; [| lia].
      rewrite Z.opp_involutive, (wf_u_inverse WF) in Hz.
      discriminate. }
    rewrite (crt_combine_exact DB WF);
      [ apply private_after_public; exact Hn1
      | exact Hq
      | apply crt_t_below_q; exact Hnz ].
Qed.

End RoundTrips.

Arguments private_after_public {n e d p q u} WF m _.
Arguments public_after_private {n e d p q u} WF m _.

(** ** The claims about the primitives *)

(** C1 (evaluation at the failing input).  On the toy key [p = 13],
    [q = 11], [n = 143], [e = 7], [d = 103], [u = 6], which is well formed,
    [decrypt] with blinding disabled answers [144] for the ciphertext [1],
    whatever the limb width, the random source and the shared state, while
    [1^103 mod 143] is [1]: the result exceeds [m^d mod n] by [n]. *)
Theorem decrypt_unblinded_off_by_modulus :
  forall DB source s,
    well_formed 143 7 103 13 11 6 /\
    fst (decrypt DB no_blinding source 1 143 7 103 13 11 6 s) = 144 /\
    1 ^ 103 mod 143 = 1.
Proof.
  intros DB source s. split; [exact toy_key_well_formed |].
  split; [| reflexivity].
  rewrite decrypt_unblinded. unfold fst, crt_combine.
  replace (half_xp 1 103 13) with 1 by (vm_compute; reflexivity).
  replace (half_xq 1 103 11) with 1 by (vm_compute; reflexivity).
  unfold crt_t, BigInteger.subtract_limb0. simpl.
  reflexivity.
Qed.

(** C2 (evaluation at the failing input).  For the same key and
    ciphertext [1] both half exponentiations are [1], the borrowed branch
    is taken, and the intermediate [t] is [q = 11] itself: congruent to
    [(xq - xp) * u] modulo [q], but outside [[0, q)]. *)
Theorem crt_t_not_normalised :
  forall DB,
    let xp := half_xp 1 103 13 in
    let xq := half_xq 1 103 11 in
    crt_t DB xp xq 6 11 = 11 /\
    crt_t DB xp xq 6 11 mod 11 = ((xq - xp) * 6) mod 11 /\
    ~ (0 <= crt_t DB xp xq 6 11 < 11).
Proof.
  intros DB xp xq.
  assert (Ht : crt_t DB xp xq 6 11 = 11).
  { subst xp xq.
    replace (half_xp 1 103 13) with 1 by (vm_compute; reflexivity).
    replace (half_xq 1 103 11) with 1 by (vm_compute; reflexivity).
    unfold crt_t, BigInteger.subtract_limb0. simpl. reflexivity. }
  rewrite Ht. split; [reflexivity |]. split; [| lia].
  subst xp xq. vm_compute. reflexivity.
Qed.

(** C3 (evaluation at the failing input).  On the toy key the message [5]
    encrypts to [47], and decrypting [47] with blinding disabled answers
    [148], not [5], whatever the limb width, the random source and the
    shared state. *)
Theorem encrypt_decrypt_unblinded_off_by_modulus :
  forall DB source s,
    encrypt 5 7 143 = 47 /\
    fst (decrypt DB no_blinding source (encrypt 5 7 143) 143 7 103 13 11 6 s)
    = 148.
Proof.
  intros DB source s. split; [vm_compute; reflexivity |].
  rewrite decrypt_unblinded. unfold fst, crt_combine.
  replace (half_xp (encrypt 5 7 143) 103 13) with 5
    by (vm_compute; reflexivity).
  replace (half_xq (encrypt 5 7 143) 103 11) with 5
    by (vm_compute; reflexivity).
  unfold crt_t, BigInteger.subtract_limb0. simpl.
  reflexivity.
Qed.

(** C10.  When the blinding flag is disabled, [decrypt] hands the shared
    state back unchanged, and its result is the same whatever the state
    and the random source: it is a function of its arguments alone. *)
Theorem decrypt_unblinded_frame :
  forall DB config source1 source2 m n e d p q u s1 s2,
    rsa_blinding config = false ->
    snd (decrypt DB config source1 m n e d p q u s1) = s1 /\
    fst (decrypt DB config source1 m n e d p q u s1)
    = fst (decrypt DB config source2 m n e d p q u s2).
Proof.
  intros DB config source1 source2 m n e d p q u s1 s2 Hoff.
  unfold decrypt, bind, ret. rewrite Hoff. split; reflexivity.
Qed.

(** The frame property on the toy key, from two different states and
    sources. *)
Lemma decrypt_unblinded_frame_witness :
  snd (decrypt 28 no_blinding (constant_source 2) 47 143 7 103 13 11 6
         initial_state) = initial_state /\
  fst (decrypt 28 no_blinding (constant_source 2) 47 143 7 103 13 11 6
         initial_state)
  = fst (decrypt 28 no_blinding (constant_source 9) 47 143 7 103 13 11 6
           (mkState 19 2 1)).
Proof.
  apply (decrypt_unblinded_frame 28 no_blinding). reflexivity.
Defined.

(** C4 (counterexample).  From the initial state, with the random source
    answering [2], masking [1] for [n = 143], [e = 7] and unmasking the
    masked value directly gives [38], not [1]: the two factors multiply to
    [r^(1 - e)], not to [1]. *)
Lemma blind_unblind_not_identity :
  let c := fst (blind (constant_source 2) 1 143 7 initial_state) in
  let s := snd (blind (constant_source 2) 1 143 7 initial_state) in
  Z.coprime (unblinder s) 143 /\
  fst (unblind c 143 s) = 38 /\
  fst (unblind c 143 s) <> 1 mod 143.
Proof.
  vm_compute. split; [reflexivity |]. split; [reflexivity | discriminate].
Qed.

(** C4 (amended).  For well-formed key material, after any sequence of
    earlier calls of [blind] from the initial state, and for every [m]
    (coprime to [n] or not): if the refreshed unblinder is coprime to [n],
    then masking [m], applying the private operation [sign] to the masked
    value and unmasking gives the private operation applied to [m]. *)
Theorem blind_private_unblind :
  forall source calls n e d p q u m,
    well_formed n e d p q u ->
    let s := refreshes source calls initial_state in
    let c := fst (blind source m n e s) in
    let s' := snd (blind source m n e s) in
    Z.coprime (unblinder s') n ->
    fst (unblind (sign c d n) n s') = sign m d n.
Proof.
  intros source calls n e d p q u m WF s c s' Hc.
  unfold unblind, bind, get_unblinder, ret, fst. to_Z.
  subst c s'. unfold sign at 2. to_Z.
  apply (unmask_private source WF); [exact Hc |].
  unfold sign. to_Z.
  apply Z.mod_mod. pose proof (wf_n_pos WF). lia.
Qed.

(** The contract on the toy key for [m = 11], a multiple of [q], after one
    earlier call; the refresh squares the unblinder [128] to [82]. *)
Lemma blind_private_unblind_witness :
  let s := refreshes (constant_source 128) [(5, 143, 7)] initial_state in
  let c := fst (blind (constant_source 128) 11 143 7 s) in
  let s' := snd (blind (constant_source 128) 11 143 7 s) in
  fst (unblind (sign c 103 143) 143 s') = sign 11 103 143.
Proof.
  apply (blind_private_unblind (constant_source 128) [(5, 143, 7)]
           143 7 103 13 11 6 11).
  - exact toy_key_well_formed.
  - vm_compute. reflexivity.
Defined.

(** The hypothesis on the unblinder cannot be dropped: a draw that shares
    a factor with the modulus has no inverse, and the message is lost. *)
Lemma blind_with_common_factor_loses_message :
  let c := fst (blind (constant_source 11) 5 143 7 initial_state) in
  let s' := snd (blind (constant_source 11) 5 143 7 initial_state) in
  fst (unblind (sign c 103 143) 143 s') = 0 /\ sign 5 103 143 = 125.
Proof. vm_compute. split; reflexivity. Qed.

(** C5 (counterexample).  On the toy key, signing [144 >= n] and verifying
    the signature gives [1], not [144]. *)
Lemma sign_verify_above_modulus :
  well_formed 143 7 103 13 11 6 /\
  verify (sign 144 103 143) 7 143 <> 144.
Proof.
  split; [exact toy_key_well_formed |]. vm_compute. discriminate.
Qed.

(** C5 (amended).  For well-formed key material and every [m] with
    [0 <= m < n], verifying the signature of [m] gives [m] back. *)
Theorem sign_verify_round_trip :
  forall n e d p q u m,
    well_formed n e d p q u ->
    0 <= m < n ->
    verify (sign m d n) e n = m.
Proof.
  intros n e d p q u m WF Hm.
  unfold verify, sign. to_Z.
  apply (public_after_private WF); exact Hm.
Qed.

(** The round trip at the upper boundary [m = n - 1] of the toy key. *)
Lemma sign_verify_round_trip_witness :
  verify (sign 142 103 143) 7 143 = 142.
Proof.
  apply (sign_verify_round_trip 143 7 103 13 11 6 142).
  - exact toy_key_well_formed.
  - lia.
Defined.

(** C7 (counterexample).  On the toy key, for [m = 150 >= n = 143], each
    of [encrypt], [sign], [verify] and [decrypt] (blinding disabled)
    returns the value it returns for [7 = m mod n], and signing the
    encryption of [150] gives [7] back, not [150]. *)
Lemma primitives_accept_message_above_modulus :
  well_formed 143 7 103 13 11 6 /\
  143 <= 150 /\
  encrypt 150 7 143 = encrypt 7 7 143 /\
  sign 150 103 143 = sign 7 103 143 /\
  verify 150 7 143 = verify 7 7 143 /\
  fst (decrypt 28 no_blinding (constant_source 2) 150 143 7 103 13 11 6
         initial_state)
  = fst (decrypt 28 no_blinding (constant_source 2) 7 143 7 103 13 11 6
           initial_state) /\
  sign (encrypt 150 7 143) 103 143 = 7 /\
  7 <> 150.
Proof.
  split; [exact toy_key_well_formed |].
  split; [lia |].
  repeat match goal with |- _ /\ _ => split end;
    try (vm_compute; reflexivity).
  discriminate.
Qed.

(** C7 (amended).  The primitives do not check [m < n]: for well-formed
    key material with [q > 2] and every [m], in range or not, [encrypt],
    [sign] and [verify] return the power of [m mod n] reduced modulo [n],
    so that [sign] after [encrypt] and [verify] after [sign] give
    [m mod n]; [decrypt] with blinding disabled returns what it returns
    for [m mod n], a value congruent to [(m mod n)^d] modulo [n]; and
    [decrypt] with blinding enabled returns [(m mod n)^d mod n] when the
    unblinder that [blind] installs is coprime to [n]. *)
Theorem out_of_range_message_reduced :
  forall DB source n e d p q u m s,
    well_formed n e d p q u ->
    2 < q ->
    encrypt m e n = (m mod n) ^ e mod n /\
    sign m d n = (m mod n) ^ d mod n /\
    verify m e n = (m mod n) ^ e mod n /\
    sign (encrypt m e n) d n = m mod n /\
    verify (sign m d n) e n = m mod n /\
    fst (decrypt DB no_blinding source m n e d p q u s)
    = fst (decrypt DB no_blinding source (m mod n) n e d p q u s) /\
    fst (decrypt DB no_blinding source m n e d p q u s) mod n
    = (m mod n) ^ d mod n /\
    (Z.coprime (unblinder (snd (blind source m n e s))) n ->
     fst (decrypt DB with_blinding source m n e d p q u s)
     = (m mod n) ^ d mod n).
Proof.
  intros DB source n e d p q u m s WF Hq.
  pose proof (wf_e_pos WF) as He. pose proof (wf_d_pos WF) as Hd.
  pose proof (wf_modulus WF) as Hn.
  unfold encrypt, sign, verify. to_Z.
  rewrite !Z.mod_pow_l, <- !Z.pow_mul_r by lia.
  rewrite (Z.mul_comm e d), (rsa_identity WF).
  repeat match goal with |- _ /\ _ => split end; try reflexivity.
  - rewrite !decrypt_unblinded. cbn [fst].
    unfold crt_combine, half_xp, half_xq. to_Z.
    rewrite (Z.mod_mod_divide m n p) by (exists q; lia).
    rewrite (Z.mod_mod_divide m n q) by (exists p; lia).
    reflexivity.
  - rewrite decrypt_unblinded. cbn [fst].
    apply (crt_combine_cong DB WF); exact Hq.
  - intros Hc. apply (decrypt_blinded_exact DB source WF); assumption.
Qed.

(** The toy key and [m = 150], with a source answering [2]. *)
Lemma out_of_range_message_reduced_witness :
  encrypt 150 7 143 = (150 mod 143) ^ 7 mod 143 /\
  sign 150 103 143 = (150 mod 143) ^ 103 mod 143 /\
  verify 150 7 143 = (150 mod 143) ^ 7 mod 143 /\
  sign (encrypt 150 7 143) 103 143 = 150 mod 143 /\
  verify (sign 150 103 143) 7 143 = 150 mod 143 /\
  fst (decrypt 28 no_blinding (constant_source 2) 150 143 7 103 13 11 6
         initial_state)
  = fst (decrypt 28 no_blinding (constant_source 2) (150 mod 143)
           143 7 103 13 11 6 initial_state) /\
  fst (decrypt 28 no_blinding (constant_source 2) 150 143 7 103 13 11 6
         initial_state) mod 143
  = (150 mod 143) ^ 103 mod 143 /\
  (Z.coprime
     (unblinder (snd (blind (constant_source 2) 150 143 7 initial_state)))
     143 ->
   fst (decrypt 28 with_blinding (constant_source 2) 150 143 7 103 13 11 6
          initial_state)
   = (150 mod 143) ^ 103 mod 143).
Proof.
  apply (out_of_range_message_reduced 28 (constant_source 2)
           143 7 103 13 11 6 150 initial_state).
  - exact toy_key_well_formed.
  - lia.
Defined.

(** ** Key generation: the in-process search *)

Section SearchFacts.

Variable lib : Library.

(** The primality test accepts primes only. *)
Hypothesis test_sound :
  forall x, isProbablePrime lib x 10 = true -> Z.prime x.

Lemma draw_prime_accepted fuel bits eev r c r' :
  draw_prime lib fuel bits eev r = Some (c, r') ->
  Z.gcd (c - 1) eev = 1 /\ Z.prime c.
Proof.
  revert r. induction fuel as [| fuel IH]; intros r; simpl; [discriminate |].
  destruct (random_candidate lib bits r) as [c0 r0].
  to_Z.
  destruct ((Z.gcd (c0 - 1) eev - 1 =? 0) && isProbablePrime lib c0 10)
    eqn:Hok.
  - intros Heq. inversion Heq; subst.
    apply andb_true_iff in Hok. destruct Hok as [Hg Hp].
    apply Z.eqb_eq in Hg. split; [lia | apply test_sound, Hp].
  - apply IH.
Qed.

Lemma search_establishes fuel B qs k eev r k' :
  search lib fuel B qs k eev r = Some k' ->
  search_result eev k' /\
  keyObject.e k' = keyObject.e k /\ keyObject.ee k' = keyObject.ee k.
Proof.
  revert k r. induction fuel as [| fuel IH]; intros k r; [discriminate |].
  cbn [search].
  destruct (draw_prime lib (S fuel) (B - qs) eev r)
    as [[cp r1] |] eqn:Hp; [| discriminate].
  destruct (draw_prime lib (S fuel) qs eev r1)
    as [[cq r2] |] eqn:Hq; [| discriminate].
  apply draw_prime_accepted in Hp. apply draw_prime_accepted in Hq.
  destruct Hp as [Hgp Hpp]. destruct Hq as [Hgq Hpq].
  to_Z.
  destruct (cp - cq <=? 0) eqn:Hcmp.
  - apply Z.leb_le in Hcmp.
    destruct (Z.gcd ((cq - 1) * (cp - 1)) eev - 1 =? 0) eqn:Hphi.
    + intros Heq. inversion Heq; subst; clear Heq. cbn.
      apply Z.eqb_eq in Hphi.
      split; [| split; reflexivity].
      exists cq, cp.
      repeat match goal with |- _ /\ _ => split end;
        try assumption; try reflexivity; lia.
    + intros Hs. apply IH in Hs. cbn in Hs. exact Hs.
  - apply Z.leb_gt in Hcmp.
    destruct (Z.gcd ((cp - 1) * (cq - 1)) eev - 1 =? 0) eqn:Hphi.
    + intros Heq. inversion Heq; subst; clear Heq. cbn.
      apply Z.eqb_eq in Hphi.
      split; [| split; reflexivity].
      exists cp, cq.
      repeat match goal with |- _ /\ _ => split end;
        try assumption; try reflexivity; lia.
    + intros Hs. apply IH in Hs. cbn in Hs. exact Hs.
Qed.

End SearchFacts.

(** ** Key generation: the search returns *)

Section SearchReturns.

Variable lib : Library.

(** A candidate that passes both tests ends the inner loop at once. *)
Lemma draw_prime_first fuel bits eev r c r' :
  random_candidate lib bits r = (c, r') ->
  Z.gcd (c - 1) eev = 1 ->
  isProbablePrime lib c 10 = true ->
  draw_prime lib (S fuel) bits eev r = Some (c, r').
Proof.
  intros Hdraw Hg Hp. simpl. rewrite Hdraw. to_Z.
  rewrite Hg, Hp. reflexivity.
Qed.

(** Two accepted candidates whose totient is coprime to the exponent end
    the search in its first round. *)
Lemma search_first_round fuel B qs k eev r cp r1 cq r2 :
  random_candidate lib (B - qs) r = (cp, r1) ->
  Z.gcd (cp - 1) eev = 1 -> isProbablePrime lib cp 10 = true ->
  random_candidate lib qs r1 = (cq, r2) ->
  Z.gcd (cq - 1) eev = 1 -> isProbablePrime lib cq 10 = true ->
  Z.gcd ((cp - 1) * (cq - 1)) eev = 1 ->
  exists k', search lib (S fuel) B qs k eev r = Some k'.
Proof.
  intros Hd1 Hg1 Hp1 Hd2 Hg2 Hp2 Hphi.
  cbn [search].
  rewrite (draw_prime_first fuel _ _ _ _ _ Hd1 Hg1 Hp1).
  rewrite (draw_prime_first fuel _ _ _ _ _ Hd2 Hg2 Hp2).
  to_Z. destruct (cp - cq <=? 0).
  - rewrite (Z.mul_comm (cq - 1)), Hphi. cbn. eexists. reflexivity.
  - rewrite Hphi. cbn. eexists. reflexivity.
Qed.


End SearchReturns.

(** C6 (counterexample).  With a primality test that accepts primes only,
    a request for [B = 4] bits and exponent [5] whose two draws both give
    [3] returns a key with [p = q = 3]: the swap orders the primes but
    does not make them differ. *)
Lemma generated_key_equal_primes :
  (forall x, isProbablePrime toy_library x 10 = true -> Z.prime x) /\
  generate_js toy_library 1 4 "5" [3; 3]
  = Some {| keyObject.n := Some 9; keyObject.e := 5;
            keyObject.ee := Some 5; keyObject.d := Some 1;
            keyObject.p := Some 3; keyObject.q := Some 3;
            keyObject.dmp1 := Some 1; keyObject.dmq1 := Some 1;
            keyObject.u := Some 0 |} /\
  ~ (3 > 3).
Proof.
  split; [intros x Hx; apply is_prime_sound; exact Hx |].
  split; [vm_compute; reflexivity | lia].
Qed.

(** C6 (amended).  Provided the primality test accepts primes only, every
    key returned by the in-process path whose two primes differ has [p]
    and [q] prime, [p > q], [gcd(ee, p - 1) = gcd(ee, q - 1) = 1],
    [n = p * q], [(d * ee) mod ((p - 1) * (q - 1)) = 1],
    [dmp1 = d mod (p - 1)], [dmq1 = d mod (q - 1)] and [u] the inverse of
    [p] modulo [q]; [ee] is the exponent read from [E]. *)
Theorem generated_key_invariants :
  forall lib fuel B E r k,
    (forall x, isProbablePrime lib x 10 = true -> Z.prime x) ->
    generate_js lib fuel B E r = Some k ->
    keyObject.p k <> keyObject.q k ->
    exists vn vd vp vq vu,
      keyObject.n k = Some vn /\ keyObject.d k = Some vd /\
      keyObject.p k = Some vp /\ keyObject.q k = Some vq /\
      keyObject.u k = Some vu /\
      keyObject.ee k = Some (BigInteger_of_hex lib E) /\
      keyObject.e k = parseInt16 lib E /\
      Z.prime vp /\ Z.prime vq /\ vp > vq /\
      Z.gcd (BigInteger_of_hex lib E) (vp - 1) = 1 /\
      Z.gcd (BigInteger_of_hex lib E) (vq - 1) = 1 /\
      vn = vp * vq /\
      (vd * BigInteger_of_hex lib E) mod ((vp - 1) * (vq - 1)) = 1 /\
      keyObject.dmp1 k = Some (vd mod (vp - 1)) /\
      keyObject.dmq1 k = Some (vd mod (vq - 1)) /\
      vu = BigInteger.modInverse vp vq /\ (vu * vp) mod vq = 1.
Proof.
  intros lib fuel B E r k Hsound Hgen Hneq.
  unfold generate_js in Hgen.
  apply (search_establishes lib Hsound) in Hgen.
  destruct Hgen as [Hres [He Hee]]. cbn in He, Hee.
  destruct Hres as (vp & vq & Hp & Hq & Hpp & Hpq & Hle & Hgp & Hgq & Hphi
                    & Hn & Hd & Hdp & Hdq & Hu).
  set (ee := BigInteger_of_hex lib E) in *.
  assert (Hlt : vq < vp).
  { destruct (Z.eq_dec vp vq) as [-> | Hd']; [| lia].
    exfalso. apply Hneq. rewrite Hp, Hq. reflexivity. }
  pose proof (Z.prime_ge_2 _ Hpq) as Hq2.
  exists (vp * vq), (BigInteger.modInverse ee ((vp - 1) * (vq - 1))), vp, vq,
    (BigInteger.modInverse vp vq).
  repeat match goal with |- _ /\ _ => split end;
    try assumption; try reflexivity; try lia.
  - rewrite Z.gcd_comm. exact Hgp.
  - rewrite Z.gcd_comm. exact Hgq.
  - apply modInverse_spec; [nia |].
    unfold Z.coprime. rewrite Z.gcd_comm. exact Hphi.
  - apply modInverse_spec; [lia |].
    apply prime_distinct_coprime; assumption.
Qed.

(** A run for [B = 8] and exponent [7] whose draws are [9] (rejected),
    [11] and [13]. *)
Lemma generated_key_invariants_witness :
  exists k,
    generate_js toy_library 2 8 "7" [9; 11; 13] = Some k /\
    exists vn vd vp vq vu,
      keyObject.n k = Some vn /\ keyObject.d k = Some vd /\
      keyObject.p k = Some vp /\ keyObject.q k = Some vq /\
      keyObject.u k = Some vu /\
      keyObject.ee k = Some (BigInteger_of_hex toy_library "7") /\
      keyObject.e k = parseInt16 toy_library "7" /\
      Z.prime vp /\ Z.prime vq /\ vp > vq /\
      Z.gcd (BigInteger_of_hex toy_library "7") (vp - 1) = 1 /\
      Z.gcd (BigInteger_of_hex toy_library "7") (vq - 1) = 1 /\
      vn = vp * vq /\
      (vd * BigInteger_of_hex toy_library "7") mod ((vp - 1) * (vq - 1)) = 1 /\
      keyObject.dmp1 k = Some (vd mod (vp - 1)) /\
      keyObject.dmq1 k = Some (vd mod (vq - 1)) /\
      vu = BigInteger.modInverse vp vq /\ (vu * vp) mod vq = 1.
Proof.
  eexists. split; [vm_compute; reflexivity |].
  apply (generated_key_invariants toy_library 2 8 "7" [9; 11; 13]).
  - intros x Hx. apply is_prime_sound. exact Hx.
  - vm_compute. reflexivity.
  - vm_compute. discriminate.
Defined.

(** The key of that run is the toy key of the specification. *)
Lemma generated_toy_key :
  generate_js toy_library 2 8 "7" [9; 11; 13]
  = Some {| keyObject.n := Some 143; keyObject.e := 7;
            keyObject.ee := Some 7; keyObject.d := Some 103;
            keyObject.p := Some 13; keyObject.q := Some 11;
            keyObject.dmp1 := Some 7; keyObject.dmq1 := Some 3;
            keyObject.u := Some 6 |}.
Proof. vm_compute. reflexivity. Qed.

(** ** Key generation: the native path *)

Section NativeFacts.

Variable lib : Library.
Variable callback_throws : invocation -> bool.
Variable subtle : SubtleCrypto.

Lemma requests_app evs1 evs2 :
  requests (evs1 ++ evs2) = requests evs1 ++ requests evs2.
Proof.
  induction evs1 as [| ev evs1 IH]; [reflexivity |].
  destruct ev; simpl; rewrite IH; reflexivity.
Qed.

Lemma invocations_app evs1 evs2 :
  invocations (evs1 ++ evs2) = invocations evs1 ++ invocations evs2.
Proof.
  induction evs1 as [| ev evs1 IH]; [reflexivity |].
  destruct ev; simpl; rewrite IH; reflexivity.
Qed.

Lemma onExported_events E jwk :
  snd (onExported lib callback_throws E jwk) = [] \/
  exists k,
    snd (onExported lib callback_throws E jwk)
    = [Callback {| err := None; key := Some k |}].
Proof.
  unfold onExported. destruct jwk as [j |]; [| left; reflexivity].
  destruct (import_field lib (jwk_n j)); [| left; reflexivity].
  destruct (import_field lib (jwk_d j)); [| left; reflexivity].
  destruct (import_field lib (jwk_p j)); [| left; reflexivity].
  destruct (import_field lib (jwk_q j)); [| left; reflexivity].
  right. eexists. unfold callback.
  destruct (callback_throws _); reflexivity.
Qed.

Lemma onError_events {B : Type} (undefined : B) :
  snd (onError callback_throws undefined tt)
  = [Callback {| err := Some "Generating key failed!"%string; key := None |}].
Proof.
  unfold onError, callback. destruct (callback_throws _); reflexivity.
Qed.

(** A report of failure returns [undefined] unless the callback throws. *)
Lemma onError_outcome {B : Type} (undefined : B) :
  fst (onError callback_throws undefined tt)
  = if callback_throws
         {| err := Some "Generating key failed!"%string; key := None |}
    then Throws "thrown by the callback"%string
    else Returns (Fulfilled undefined).
Proof.
  unfold onError, callback. destruct (callback_throws _); reflexivity.
Qed.

(** The native path issues exactly one key-generation request. *)
Lemma native_requests B E :
  requests (generate_native lib callback_throws subtle B E) = [keyGenOpt B E].
Proof.
  unfold generate_native.
  destruct (then_ (generateKey subtle (keyGenOpt B E) true
                     ["sign"%string; "verify"%string])
              (onGenerated subtle) (onError callback_throws None))
    as [p1 evs1] eqn:H1.
  destruct (then_ p1 (onExported lib callback_throws E)
              (onError callback_throws tt)) as [p2 evs2] eqn:H2.
  simpl. rewrite requests_app. f_equal.
  assert (R1 : requests evs1 = []).
  { unfold then_ in H1.
    destruct (generateKey subtle _ _ _) as [kp | |].
    - unfold onGenerated in H1. simpl in H1. inversion H1; reflexivity.
    - pose proof (onError_events (B := option JWK) None) as Hev.
      destruct (onError callback_throws None tt) as [c evs]. simpl in *.
      subst evs. destruct c; inversion H1; reflexivity.
    - inversion H1; reflexivity. }
  assert (R2 : requests evs2 = []).
  { unfold then_ in H2. destruct p1 as [j | |].
    - pose proof (onExported_events E j) as Hev.
      destruct (onExported lib callback_throws E j) as [c evs]. simpl in *.
      destruct Hev as [-> | [k ->]]; destruct c; inversion H2; reflexivity.
    - pose proof (onError_events (B := unit) tt) as Hev.
      destruct (onError callback_throws tt tt) as [c evs]. simpl in *.
      subst evs. destruct c; inversion H2; reflexivity.
    - inversion H2; reflexivity. }
  rewrite R1, R2. reflexivity.
Qed.

(** Every run of the native path invokes the callback in one of four
    ways: not at all, once with a failure, once with a key, or twice with
    a failure, the last only when the callback throws on a failure. *)
Lemma native_invocations_cases B E :
  let failure :=
    {| err := Some "Generating key failed!"%string; key := None |} in
  let invs := invocations (generate_native lib callback_throws subtle B E) in
  invs = [] \/
  invs = [failure] \/
  (exists k, invs = [{| err := None; key := Some k |}]) \/
  (invs = [failure; failure] /\ callback_throws failure = true).
Proof.
  intros failure invs. subst invs failure. unfold generate_native, then_.
  destruct (generateKey subtle _ _ _) as [kp | |].
  - unfold onGenerated. cbn [fst snd].
    destruct (exportKey subtle "jwk" (privateKey subtle kp)) as [j | |].
    + pose proof (onExported_events E (Some j)) as Hev.
      destruct (onExported lib callback_throws E (Some j)) as [c evs].
      cbn [fst snd] in *.
      destruct Hev as [-> | [k ->]]; destruct c; cbn;
        solve [ left; reflexivity
              | right; right; left; eexists; reflexivity ].
    + unfold onError, callback.
      destruct (callback_throws _); cbn; right; left; reflexivity.
    + cbn. left. reflexivity.
  - unfold onError, callback.
    destruct (callback_throws
                {| err := Some "Generating key failed!"%string;
                   key := None |}) eqn:Hthrow; cbn.
    + right; right; right. split; reflexivity.
    + right; left. reflexivity.
  - cbn. left. reflexivity.
Qed.

(** A callback that returns from a failure report is invoked at most
    once. *)
Lemma native_invoked_once_unless_thrown B E :
  callback_throws
    {| err := Some "Generating key failed!"%string; key := None |} = false ->
  (List.length (invocations (generate_native lib callback_throws subtle B E))
   <= 1)%nat.
Proof.
  intros Hquiet.
  destruct (native_invocations_cases B E) as [H | [H | [[k H] | [_ H]]]];
    try (rewrite H; simpl; lia).
  rewrite Hquiet in H. discriminate.
Qed.

(** No invocation carries both a failure and a key, and none carries
    neither. *)
Lemma native_invocation_exclusive B E inv :
  In inv (invocations (generate_native lib callback_throws subtle B E)) ->
  (err inv = None /\ key inv <> None) \/ (err inv <> None /\ key inv = None).
Proof.
  intros Hin.
  destruct (native_invocations_cases B E) as [H | [H | [[k H] | [H _]]]];
    rewrite H in Hin; simpl in Hin;
    repeat match goal with
           | Hor : _ \/ _ |- _ => destruct Hor
           | Hf : False |- _ => destruct Hf
           end; subst inv; simpl;
    solve [ left; split; [reflexivity | discriminate]
          | right; split; [discriminate | reflexivity] ].
Qed.

End NativeFacts.

(** C8.  Whenever the platform key service is present, [generate] issues
    exactly one key-generation request, [keyGenOpt B E], and its public
    exponent is the byte array [[1; 0; 1]], that is 65537, whatever the
    caller passed as [E]. *)
Theorem native_request_fixed_exponent :
  forall lib callback_throws subtle fuel B E r,
  exists evs,
    generate lib callback_throws (Some subtle) fuel B E r = Some evs /\
    requests evs = [keyGenOpt B E] /\
    forall opt,
      In opt (requests evs) ->
      publicExponent opt = [1; 0; 1] /\
      big_endian (publicExponent opt) = 65537 /\
      modulusLength opt = B.
Proof.
  intros lib callback_throws subtle fuel B E r.
  exists (generate_native lib callback_throws subtle B E).
  split; [reflexivity |].
  rewrite native_requests. split; [reflexivity |].
  intros opt [<- | []]. repeat split.
Qed.

(** C9 (evaluation at the failing input).  On a platform that rejects the
    creation of the key, with a callback that throws when it is handed a
    failure, the native path invokes the callback twice with the same
    failure: the exception thrown inside the first [onError] rejects the
    derived promise, whose rejection handler is [onError] again. *)
Theorem native_callback_invoked_twice :
  forall lib fuel B E r,
  exists evs,
    generate lib rethrowing_callback (Some rejecting_platform) fuel B E r
    = Some evs /\
    invocations evs
    = [ {| err := Some "Generating key failed!"%string; key := None |};
        {| err := Some "Generating key failed!"%string; key := None |} ] /\
    List.length (invocations evs) = 2%nat.
Proof.
  intros lib fuel B E r. eexists. split; [reflexivity |].
  split; reflexivity.
Qed.

(** ** Remarks *)

(** The bound [2 < q] of the lemmas on the CRT path is needed: for
    [q = 2] the reduced exponent [d mod (q - 1)] is zero, and the half
    exponentiation of an even ciphertext is [0^0 = 1]. *)
Lemma crt_with_even_prime :
  forall DB source s,
    well_formed 10 3 3 5 2 1 /\
    fst (decrypt DB no_blinding source 0 10 3 3 5 2 1 s) = 5 /\
    0 ^ 3 mod 10 = 0.
Proof.
  intros DB source s. split.
  - constructor; try lia; try reflexivity;
      apply is_prime_sound; vm_compute; reflexivity.
  - split; [| reflexivity].
    rewrite decrypt_unblinded. unfold fst, crt_combine.
    replace (half_xp 0 3 5) with 0 by (vm_compute; reflexivity).
    replace (half_xq 0 3 2) with 1 by (vm_compute; reflexivity).
    unfold crt_t.
    destruct (strict_eq_zero (BigInteger.subtract_limb0 DB 1 0));
      vm_compute; reflexivity.
Qed.

(** On the platform that rejects the creation of the key, a callback that
    returns is invoked once. *)
Lemma native_quiet_callback_once :
  forall lib B E,
    invocations (generate_native lib quiet_callback rejecting_platform B E)
    = [ {| err := Some "Generating key failed!"%string; key := None |} ].
Proof. reflexivity. Qed.

(** The hypothesis on the primality test is needed as well: a test that
    lets the composite [9] through makes it a factor of the key. *)
Lemma composite_accepted_by_the_test :
  generate_js credulous_library 1 8 "7" [9; 5]
  = Some {| keyObject.n := Some 45; keyObject.e := 7;
            keyObject.ee := Some 7; keyObject.d := Some 23;
            keyObject.p := Some 9; keyObject.q := Some 5;
            keyObject.dmp1 := Some 7; keyObject.dmq1 := Some 3;
            keyObject.u := Some 4 |} /\
  ~ Z.prime 9.
Proof.
  split; [vm_compute; reflexivity |].
  intros [_ Hdiv]. apply (Hdiv 3); [lia | exists 3; reflexivity].
Qed.

(** * Further properties of the code *)

(** ** The CRT path of decrypt *)

(** X1.  For a prime modulus [p > 2] and an exponent [d > 0] that is not a
    multiple of [p - 1], each half exponentiation of [decrypt], which
    reduces the base modulo the prime and the exponent modulo the prime
    minus one, gives [m^d] modulo the prime, for every [m], multiples of
    the prime included. *)
Theorem half_exponentiation_reduces :
  forall p d m,
    Z.prime p -> 2 < p -> 0 < d -> d mod (p - 1) <> 0 ->
    half_xp m d p = m ^ d mod p /\ half_xq m d p = m ^ d mod p.
Proof.
  intros p d m Hp Hp2 Hd Hr. split.
  - apply half_xp_spec; assumption.
  - apply half_xq_spec; assumption.
Qed.

(** [p = 13], [d = 103], and the base [26], a multiple of [13]. *)
Lemma half_exponentiation_reduces_witness :
  half_xp 26 103 13 = 26 ^ 103 mod 13 /\ half_xq 26 103 13 = 26 ^ 103 mod 13.
Proof.
  apply (half_exponentiation_reduces 13 103 26).
  - apply is_prime_sound. vm_compute. reflexivity.
  - lia.
  - lia.
  - vm_compute. discriminate.
Defined.

(** X2.  For every positive [q], whatever the limb width and the two
    halves, the value of [t] after the branch on [t[0] === 0] is congruent
    to [(xq - xp) * u] modulo [q] and lies in [[0, q]]; it is [q] itself
    only in the borrowed branch, when [(xq - xp) * u] is a multiple of
    [q]. *)
Theorem crt_t_congruent_and_bounded :
  forall DB xp xq u q,
    0 < q ->
    crt_t DB xp xq u q mod q = ((xq - xp) * u) mod q /\
    0 <= crt_t DB xp xq u q <= q /\
    (crt_t DB xp xq u q = q ->
     strict_eq_zero (BigInteger.subtract_limb0 DB xq xp) = true /\
     ((xq - xp) * u) mod q = 0).
Proof.
  intros DB xp xq u q Hq.
  split; [apply crt_t_cong; exact Hq |].
  split; [apply crt_t_range; exact Hq |].
  intros Ht.
  pose proof (Z.mod_pos_bound ((xq - xp) * u) q Hq) as Hb.
  destruct (strict_eq_zero (BigInteger.subtract_limb0 DB xq xp)) eqn:Hs.
  - split; [reflexivity |].
    rewrite crt_t_borrowed in Ht by assumption.
    destruct (Z.eqb_spec (((xq - xp) * u) mod q) 0); [assumption | lia].
  - rewrite crt_t_plain in Ht by assumption. lia.
Qed.

(** Halves [3] and [9] with [u = 6], [q = 11], limbs of 28 bits. *)
Lemma crt_t_congruent_and_bounded_witness :
  crt_t 28 3 9 6 11 mod 11 = ((9 - 3) * 6) mod 11 /\
  0 <= crt_t 28 3 9 6 11 <= 11 /\
  (crt_t 28 3 9 6 11 = 11 ->
   strict_eq_zero (BigInteger.subtract_limb0 28 9 3) = true /\
   ((9 - 3) * 6) mod 11 = 0).
Proof.
  apply (crt_t_congruent_and_bounded 28 3 9 6 11). lia.
Defined.

(** X3.  For well-formed key material with [q > 2], [decrypt] with
    blinding disabled returns [m^d mod n], except that it returns
    [n + m^d mod n] exactly when limb [0] of [xq - xp] is zero and
    [(xq - xp) * u] is a multiple of [q]. *)
Theorem unblinded_decrypt_value :
  forall DB source n e d p q u m s,
    well_formed n e d p q u ->
    2 < q ->
    fst (decrypt DB no_blinding source m n e d p q u s)
    = if strict_eq_zero
           (BigInteger.subtract_limb0 DB (half_xq m d q) (half_xp m d p))
         && (((half_xq m d q - half_xp m d p) * u) mod q =? 0)
      then n + m ^ d mod n
      else m ^ d mod n.
Proof.
  intros DB source n e d p q u m s WF Hq.
  pose proof (wf_n_pos WF) as Hn.
  pose proof (wf_p_gt_2 WF) as Hp.
  pose proof (Z.mod_pos_bound (m ^ d) n Hn) as Hb.
  set (xp := half_xp m d p). set (xq := half_xq m d q).
  destruct (strict_eq_zero (BigInteger.subtract_limb0 DB xq xp)) eqn:Hs;
    destruct (Z.eqb_spec (((xq - xp) * u) mod q) 0) as [Hz | Hnz];
    cbn [andb].
  - destruct (decrypt_unblinded_cases DB source WF m s Hq) as [Hc | Hc];
      [| exact Hc].
    exfalso. rewrite decrypt_unblinded in Hc. cbn [fst] in Hc.
    unfold crt_combine in Hc. fold xp xq in Hc.
    rewrite crt_t_borrowed in Hc by (assumption || lia).
    rewrite Hz in Hc. cbn in Hc. to_Z.
    assert (0 <= xp) by (subst xp; unfold half_xp; to_Z;
                         apply Z.mod_pos_bound; lia).
    pose proof (wf_modulus WF) as Hmod. nia.
  - rewrite decrypt_unblinded. cbn [fst].
    apply (crt_combine_exact DB WF); [exact Hq |].
    apply (crt_t_below_q _ _ _ _ _ _ WF). exact Hnz.
  - apply (decrypt_unblinded_plain_branch DB source WF); assumption.
  - apply (decrypt_unblinded_plain_branch DB source WF); assumption.
Qed.

(** The toy key and the ciphertext [47], limbs of 28 bits. *)
Lemma unblinded_decrypt_value_witness :
  fst (decrypt 28 no_blinding (constant_source 2) 47 143 7 103 13 11 6
         initial_state)
  = if strict_eq_zero
         (BigInteger.subtract_limb0 28 (half_xq 47 103 11) (half_xp 47 103 13))
       && (((half_xq 47 103 11 - half_xp 47 103 13) * 6) mod 11 =? 0)
    then 143 + 47 ^ 103 mod 143
    else 47 ^ 103 mod 143.
Proof.
  apply (unblinded_decrypt_value 28 (constant_source 2) 143 7 103 13 11 6 47).
  - exact toy_key_well_formed.
  - lia.
Defined.

(** ** Blinding *)

(** X4.  For well-formed key material with [q > 2], from any shared
    state: if the unblinder that [blind] installs is coprime to [n], then
    [decrypt] with blinding enabled returns what the non-CRT private
    operation [sign] returns, [m^d mod n]. *)
Theorem blinded_decrypt_agrees_with_sign :
  forall DB source n e d p q u m s,
    well_formed n e d p q u ->
    2 < q ->
    Z.coprime (unblinder (snd (blind source m n e s))) n ->
    fst (decrypt DB with_blinding source m n e d p q u s) = sign m d n.
Proof.
  intros DB source n e d p q u m s WF Hq Hc.
  unfold sign. to_Z.
  apply (decrypt_blinded_exact DB source WF); assumption.
Qed.

(** The toy key, the ciphertext [1] that the unblinded path gets wrong,
    and a source answering [2]. *)
Lemma blinded_decrypt_agrees_with_sign_witness :
  fst (decrypt 28 with_blinding (constant_source 2) 1 143 7 103 13 11 6
         initial_state)
  = sign 1 103 143.
Proof.
  apply (blinded_decrypt_agrees_with_sign 28 (constant_source 2)
           143 7 103 13 11 6 1 initial_state).
  - exact toy_key_well_formed.
  - lia.
  - vm_compute. reflexivity.
Defined.

(** X5.  After [blind] for a modulus [n >= 2] and an exponent [e >= 0],
    if the installed unblinder is coprime to [n] then the installed
    blinder is the inverse of its [e]-th power:
    [blinder * unblinder^e mod n = 1]. *)
Theorem blinder_inverts_unblinder_power :
  forall source m n e s,
    2 <= n -> 0 <= e ->
    let s' := snd (blind source m n e s) in
    Z.coprime (unblinder s') n ->
    (blinder s' * unblinder s' ^ e) mod n = 1.
Proof.
  intros source m n e s Hn He s' Hc. subst s'.
  rewrite blind_blinder.
  set (r := unblinder (snd (blind source m n e s))) in *.
  rewrite Z.mul_mod_idemp_l by lia.
  rewrite <- Z.pow_mul_l, <- Z.mod_pow_l.
  rewrite (modInverse_spec r n Hn Hc), Z.pow_1_l by lia.
  apply Z.mod_1_l. lia.
Qed.

(** [n = 143], [e = 7], a source answering [2]. *)
Lemma blinder_inverts_unblinder_power_witness :
  let s' := snd (blind (constant_source 2) 5 143 7 initial_state) in
  (blinder s' * unblinder s' ^ 7) mod 143 = 1.
Proof.
  apply (blinder_inverts_unblinder_power (constant_source 2) 5 143 7
           initial_state).
  - lia.
  - lia.
  - vm_compute. reflexivity.
Defined.

(** The refresh keeps an unblinder usable: from a state whose unblinder is
    zero or coprime to [n], with a source whose answers for [[2, n)] are
    coprime to [n], the installed unblinder is coprime to [n]. *)
Lemma blind_keeps_coprime source m n e s :
  2 <= n ->
  (forall k, Z.coprime (source k 2 n) n) ->
  unblinder s = 0 \/ Z.coprime (unblinder s) n ->
  Z.coprime (unblinder (snd (blind source m n e s))) n.
Proof.
  intros Hn Hsrc Hinv. rewrite blind_unblinder.
  destruct (BigInteger.bitLength (unblinder s) =? BigInteger.bitLength n)
    eqn:Hbits; [| apply Hsrc].
  destruct Hinv as [Hz | Hc].
  - exfalso. rewrite Hz in Hbits. unfold BigInteger.bitLength in Hbits.
    rewrite Z.ltb_irrefl in Hbits.
    replace (0 <? n) with true in Hbits by (symmetry; apply Z.ltb_lt; lia).
    pose proof (Z.log2_nonneg n). apply Z.eqb_eq in Hbits. lia.
  - apply Z.coprime_mod_l_iff. apply Z.coprime_mul_l; exact Hc.
Qed.

Lemma refreshes_keep_coprime source n calls s :
  2 <= n ->
  (forall k, Z.coprime (source k 2 n) n) ->
  Forall (fun c => snd (fst c) = n) calls ->
  unblinder s = 0 \/ Z.coprime (unblinder s) n ->
  unblinder (refreshes source calls s) = 0 \/
  Z.coprime (unblinder (refreshes source calls s)) n.
Proof.
  intros Hn Hsrc Hall. revert s.
  induction Hall as [| [[m n'] e] calls Hhead _ IH]; intros s Hinv;
    [exact Hinv |].
  cbn in Hhead. subst n'. cbn [refreshes]. apply IH. right.
  apply blind_keeps_coprime; assumption.
Qed.

(** X6.  For well-formed key material with [q > 2] and a random source
    whose answers for the range [[2, n)] are coprime to [n]: after any
    sequence of earlier blinded calls for the same modulus from the
    initial state, whether a call refreshed the unblinder by squaring or
    by a fresh draw, [decrypt] with blinding enabled returns
    [m^d mod n]. *)
Theorem blinded_decrypt_stays_correct :
  forall DB source calls n e d p q u m,
    well_formed n e d p q u ->
    2 < q ->
    (forall k, Z.coprime (source k 2 n) n) ->
    Forall (fun c => snd (fst c) = n) calls ->
    fst (decrypt DB with_blinding source m n e d p q u
           (refreshes source calls initial_state))
    = m ^ d mod n.
Proof.
  intros DB source calls n e d p q u m WF Hq Hsrc Hall.
  assert (Hn : 2 <= n).
  { pose proof (wf_p_gt_2 WF). rewrite (wf_modulus WF). nia. }
  apply (decrypt_blinded_exact DB source WF); [exact Hq |].
  apply blind_keeps_coprime; [exact Hn | exact Hsrc |].
  apply refreshes_keep_coprime; try assumption.
  left. reflexivity.
Qed.

(** The toy key after three earlier calls, with a source answering [128]:
    the refreshes alternate between a draw and a squaring, since [128]
    has the bit length of [143] and its square [82] modulo [143] has
    not. *)
Lemma blinded_decrypt_stays_correct_witness :
  fst (decrypt 28 with_blinding (constant_source 128) 47 143 7 103 13 11 6
         (refreshes (constant_source 128)
            [(5, 143, 7); (1, 143, 7); (77, 143, 7)] initial_state))
  = 47 ^ 103 mod 143.
Proof.
  apply (blinded_decrypt_stays_correct 28 (constant_source 128)
           [(5, 143, 7); (1, 143, 7); (77, 143, 7)] 143 7 103 13 11 6 47).
  - exact toy_key_well_formed.
  - lia.
  - intros k. vm_compute. reflexivity.
  - repeat constructor.
Defined.

(** ** Round trips *)

(** X7.  For well-formed key material with [q > 2] and every [m] with
    [0 <= m < n]: if the unblinder that [blind] installs is coprime to [n],
    decrypting the encryption of [m] with blinding enabled gives [m]. *)
Theorem blinded_round_trip :
  forall DB source n e d p q u m s,
    well_formed n e d p q u ->
    2 < q ->
    0 <= m < n ->
    Z.coprime (unblinder (snd (blind source (encrypt m e n) n e s))) n ->
    fst (decrypt DB with_blinding source (encrypt m e n) n e d p q u s) = m.
Proof.
  intros DB source n e d p q u m s WF Hq Hm Hc.
  apply (encrypt_decrypt_blinded _ _ _ _ _ _ WF); assumption.
Qed.

(** The toy key and the message [5], which the unblinded path returns as
    [148]. *)
Lemma blinded_round_trip_witness :
  fst (decrypt 28 with_blinding (constant_source 2) (encrypt 5 7 143)
         143 7 103 13 11 6 initial_state) = 5.
Proof.
  apply (blinded_round_trip 28 (constant_source 2) 143 7 103 13 11 6 5
           initial_state).
  - exact toy_key_well_formed.
  - lia.
  - lia.
  - vm_compute. reflexivity.
Defined.

(** X8.  For well-formed key material with [q > 2], the two boundary
    messages [0] and [n - 1] survive encryption followed by decryption
    with blinding disabled, whatever the limb width. *)
Theorem unblinded_boundary_round_trip :
  forall DB source n e d p q u s,
    well_formed n e d p q u ->
    2 < q ->
    fst (decrypt DB no_blinding source (encrypt 0 e n) n e d p q u s) = 0 /\
    fst (decrypt DB no_blinding source (encrypt (n - 1) e n) n e d p q u s)
    = n - 1.
Proof.
  intros DB source n e d p q u s WF Hq.
  apply (boundary_round_trip _ _ _ _ _ _ WF); exact Hq.
Qed.

Lemma unblinded_boundary_round_trip_witness :
  fst (decrypt 28 no_blinding (constant_source 2) (encrypt 0 7 143)
         143 7 103 13 11 6 initial_state) = 0 /\
  fst (decrypt 28 no_blinding (constant_source 2) (encrypt (143 - 1) 7 143)
         143 7 103 13 11 6 initial_state) = 143 - 1.
Proof.
  apply (unblinded_boundary_round_trip 28 (constant_source 2)
           143 7 103 13 11 6 initial_state).
  - exact toy_key_well_formed.
  - lia.
Defined.

(** X9.  For well-formed key material and every [m] with [0 <= m < n],
    [sign] undoes [encrypt]: the private operation applied to the
    encryption of [m] gives [m]. *)
Theorem sign_inverts_encrypt :
  forall n e d p q u m,
    well_formed n e d p q u ->
    0 <= m < n ->
    sign (encrypt m e n) d n = m.
Proof.
  intros n e d p q u m WF Hm.
  unfold sign, encrypt. to_Z.
  apply (private_after_public WF); exact Hm.
Qed.

Lemma sign_inverts_encrypt_witness :
  sign (encrypt 65 7 143) 103 143 = 65.
Proof.
  apply (sign_inverts_encrypt 143 7 103 13 11 6 65).
  - exact toy_key_well_formed.
  - lia.
Defined.

(** ** The in-process search *)

Section SearchStructure.

Variable lib : Library.

Lemma draw_prime_passed fuel bits eev r c r' :
  draw_prime lib fuel bits eev r = Some (c, r') ->
  Z.gcd (c - 1) eev = 1 /\ isProbablePrime lib c 10 = true.
Proof.
  revert r. induction fuel as [| fuel IH]; intros r; simpl; [discriminate |].
  destruct (random_candidate lib bits r) as [c0 r0]. to_Z.
  destruct ((Z.gcd (c0 - 1) eev - 1 =? 0) && isProbablePrime lib c0 10)
    eqn:Hok; [| apply IH].
  intros Heq. inversion Heq; subst.
  apply andb_true_iff in Hok. destruct Hok as [Hg Hp].
  apply Z.eqb_eq in Hg. split; [lia | exact Hp].
Qed.

Lemma search_structure fuel B qs k eev r k' :
  search lib fuel B qs k eev r = Some k' ->
  exists vp vq,
    keyObject.p k' = Some vp /\ keyObject.q k' = Some vq /\
    vq <= vp /\
    isProbablePrime lib vp 10 = true /\ isProbablePrime lib vq 10 = true /\
    Z.gcd (vp - 1) eev = 1 /\ Z.gcd (vq - 1) eev = 1 /\
    Z.gcd ((vp - 1) * (vq - 1)) eev = 1 /\
    keyObject.n k' = Some (vp * vq) /\
    keyObject.d k' = Some (BigInteger.modInverse eev ((vp - 1) * (vq - 1))).
Proof.
  revert k r. induction fuel as [| fuel IH]; intros k r; [discriminate |].
  cbn [search].
  destruct (draw_prime lib (S fuel) (B - qs) eev r)
    as [[cp r1] |] eqn:Hp; [| discriminate].
  destruct (draw_prime lib (S fuel) qs eev r1)
    as [[cq r2] |] eqn:Hq; [| discriminate].
  apply draw_prime_passed in Hp. apply draw_prime_passed in Hq.
  destruct Hp as [Hgp Hpp]. destruct Hq as [Hgq Hpq]. to_Z.
  destruct (cp - cq <=? 0) eqn:Hcmp.
  - apply Z.leb_le in Hcmp.
    destruct (Z.gcd ((cq - 1) * (cp - 1)) eev - 1 =? 0) eqn:Hphi;
      [| apply IH].
    intros Heq. inversion Heq; subst; clear Heq. cbn.
    apply Z.eqb_eq in Hphi. exists cq, cp.
    repeat match goal with |- _ /\ _ => split end;
      try assumption; try reflexivity; lia.
  - apply Z.leb_gt in Hcmp.
    destruct (Z.gcd ((cp - 1) * (cq - 1)) eev - 1 =? 0) eqn:Hphi;
      [| apply IH].
    intros Heq. inversion Heq; subst; clear Heq. cbn.
    apply Z.eqb_eq in Hphi. exists cp, cq.
    repeat match goal with |- _ /\ _ => split end;
      try assumption; try reflexivity; lia.
Qed.

End SearchStructure.

(** X10.  Whatever the primality test and the random source do, every key
    the in-process path returns has [p >= q] and [n = p * q], both factors
    passed [isProbablePrime(10)], and [p - 1], [q - 1] and their product
    are coprime to the exponent read from [E]; [d] is [modInverse] of that
    exponent modulo the product. *)
Theorem generated_key_structure :
  forall lib fuel B E r k,
    generate_js lib fuel B E r = Some k ->
    exists vp vq,
      keyObject.p k = Some vp /\ keyObject.q k = Some vq /\
      vq <= vp /\
      isProbablePrime lib vp 10 = true /\ isProbablePrime lib vq 10 = true /\
      Z.gcd (vp - 1) (BigInteger_of_hex lib E) = 1 /\
      Z.gcd (vq - 1) (BigInteger_of_hex lib E) = 1 /\
      Z.gcd ((vp - 1) * (vq - 1)) (BigInteger_of_hex lib E) = 1 /\
      keyObject.n k = Some (vp * vq) /\
      keyObject.d k
      = Some (BigInteger.modInverse (BigInteger_of_hex lib E)
                ((vp - 1) * (vq - 1))).
Proof.
  intros lib fuel B E r k Hgen. unfold generate_js in Hgen.
  apply search_structure in Hgen. exact Hgen.
Qed.

(** The run with the test that accepts everything and the draws [9] and
    [5]. *)
Lemma generated_key_structure_witness :
  exists k,
    generate_js credulous_library 1 8 "7" [9; 5] = Some k /\
    exists vp vq,
      keyObject.p k = Some vp /\ keyObject.q k = Some vq /\
      vq <= vp /\
      isProbablePrime credulous_library vp 10 = true /\
      isProbablePrime credulous_library vq 10 = true /\
      Z.gcd (vp - 1) (BigInteger_of_hex credulous_library "7") = 1 /\
      Z.gcd (vq - 1) (BigInteger_of_hex credulous_library "7") = 1 /\
      Z.gcd ((vp - 1) * (vq - 1)) (BigInteger_of_hex credulous_library "7")
      = 1 /\
      keyObject.n k = Some (vp * vq) /\
      keyObject.d k
      = Some (BigInteger.modInverse (BigInteger_of_hex credulous_library "7")
                ((vp - 1) * (vq - 1))).
Proof.
  eexists. split; [vm_compute; reflexivity |].
  apply (generated_key_structure credulous_library 1 8 "7" [9; 5]).
  vm_compute. reflexivity.
Defined.

(** X11.  Provided the primality test accepts primes only and the exponent
    read from [E] is positive, a key returned by the in-process path whose
    two primes differ is well-formed key material, so the primitives work
    with it: [verify] undoes [sign] and [sign] undoes [encrypt] on every
    [m] with [0 <= m < n]. *)
Theorem generated_key_usable :
  forall lib fuel B E r k,
    (forall x, isProbablePrime lib x 10 = true -> Z.prime x) ->
    0 < BigInteger_of_hex lib E ->
    generate_js lib fuel B E r = Some k ->
    keyObject.p k <> keyObject.q k ->
    exists vn vd vp vq vu,
      keyObject.n k = Some vn /\ keyObject.d k = Some vd /\
      keyObject.p k = Some vp /\ keyObject.q k = Some vq /\
      keyObject.u k = Some vu /\
      well_formed vn (BigInteger_of_hex lib E) vd vp vq vu /\
      forall m,
        0 <= m < vn ->
        verify (sign m vd vn) (BigInteger_of_hex lib E) vn = m /\
        sign (encrypt m (BigInteger_of_hex lib E) vn) vd vn = m.
Proof.
  intros lib fuel B E r k Hsound Hpos Hgen Hneq.
  unfold generate_js in Hgen.
  apply (search_establishes lib Hsound) in Hgen.
  destruct Hgen as [Hres _].
  destruct Hres as (vp & vq & Hp & Hq & Hpp & Hpq & Hle & Hgp & Hgq & Hphi
                    & Hn & Hd & Hdp & Hdq & Hu).
  set (ee := BigInteger_of_hex lib E) in *.
  assert (Hlt : vq < vp).
  { destruct (Z.eq_dec vp vq) as [-> | Hd']; [| lia].
    exfalso. apply Hneq. rewrite Hp, Hq. reflexivity. }
  pose proof (Z.prime_ge_2 _ Hpq) as Hq2.
  assert (Hinv : (BigInteger.modInverse ee ((vp - 1) * (vq - 1)) * ee)
                 mod ((vp - 1) * (vq - 1)) = 1).
  { apply modInverse_spec; [nia |].
    unfold Z.coprime. rewrite Z.gcd_comm. exact Hphi. }
  assert (WF : well_formed (vp * vq) ee
                 (BigInteger.modInverse ee ((vp - 1) * (vq - 1))) vp vq
                 (BigInteger.modInverse vp vq)).
  { constructor; try assumption; try reflexivity.
    assert (Hd0 : BigInteger.modInverse ee ((vp - 1) * (vq - 1))
                  = Z.invmod ee ((vp - 1) * (vq - 1))).
    { unfold BigInteger.modInverse.
      rewrite (Z.gcd_comm ee), Hphi. reflexivity. }
    rewrite Hd0 in *.
    pose proof (Z.mod_pos_bound (Z.invmod ee ((vp - 1) * (vq - 1)))
                  ((vp - 1) * (vq - 1)) ltac:(nia)) as Hb.
    rewrite Z.mod_invmod in Hb.
    destruct (Z.eq_dec (Z.invmod ee ((vp - 1) * (vq - 1))) 0) as [Hz | Hnz];
      [| lia].
    rewrite Hz in Hinv. rewrite Z.mul_0_l, Zmod_0_l in Hinv. discriminate. }
  exists (vp * vq), (BigInteger.modInverse ee ((vp - 1) * (vq - 1))), vp, vq,
    (BigInteger.modInverse vp vq).
  repeat match goal with |- _ /\ _ => split end; try assumption.
  - intros m Hm. unfold verify, sign, encrypt. to_Z. split.
    + apply (public_after_private WF); exact Hm.
    + apply (private_after_public WF); exact Hm.
Qed.

(** The run that returns the toy key. *)
Lemma generated_key_usable_witness :
  exists k,
    generate_js toy_library 2 8 "7" [9; 11; 13] = Some k /\
    exists vn vd vp vq vu,
      keyObject.n k = Some vn /\ keyObject.d k = Some vd /\
      keyObject.p k = Some vp /\ keyObject.q k = Some vq /\
      keyObject.u k = Some vu /\
      well_formed vn (BigInteger_of_hex toy_library "7") vd vp vq vu /\
      forall m,
        0 <= m < vn ->
        verify (sign m vd vn) (BigInteger_of_hex toy_library "7") vn = m /\
        sign (encrypt m (BigInteger_of_hex toy_library "7") vn) vd vn = m.
Proof.
  eexists. split; [vm_compute; reflexivity |].
  apply (generated_key_usable toy_library 2 8 "7" [9; 11; 13]).
  - intros x Hx. apply is_prime_sound. exact Hx.
  - vm_compute. reflexivity.
  - vm_compute. reflexivity.
  - vm_compute. discriminate.
Defined.



(** ** The native path *)

(** X13.  On the native path, a callback that returns when it is handed
    the failure report is invoked at most once, whatever the platform
    answers. *)
Theorem native_at_most_once_for_returning_callback :
  forall lib callback_throws subtle B E,
    callback_throws failure = false ->
    (List.length (invocations (generate_native lib callback_throws subtle B E))
     <= 1)%nat.
Proof.
  intros lib callback_throws subtle B E Hquiet.
  apply native_invoked_once_unless_thrown. exact Hquiet.
Qed.

Lemma native_at_most_once_for_returning_callback_witness :
  (List.length
     (invocations (generate_native toy_library quiet_callback toy_platform
                     8 "7"))
   <= 1)%nat.
Proof.
  apply (native_at_most_once_for_returning_callback toy_library
           quiet_callback toy_platform 8 "7").
  reflexivity.
Defined.

(** X14.  Every invocation of the callback on the native path carries
    either a key and no failure, or a failure and no key. *)
Theorem native_invocation_key_xor_failure :
  forall lib callback_throws subtle B E inv,
    In inv (invocations (generate_native lib callback_throws subtle B E)) ->
    (err inv = None /\ key inv <> None) \/
    (err inv <> None /\ key inv = None).
Proof.
  intros lib callback_throws subtle B E inv Hin.
  apply (native_invocation_exclusive lib callback_throws subtle B E).
  exact Hin.
Qed.

Lemma native_invocation_key_xor_failure_witness :
  (err failure = None /\ key failure <> None) \/
  (err failure <> None /\ key failure = None).
Proof.
  apply (native_invocation_key_xor_failure toy_library rethrowing_callback
           rejecting_platform 8 "7" failure).
  left. reflexivity.
Defined.

(** X15.  When the platform creates the key and exports it with all four
    fields, the native path invokes the callback exactly once, whether or
    not the callback throws, with a key whose [n], [d], [p], [q] are read
    from the export, whose [u] is [modInverse] of [p] modulo [q], whose
    [ee] is read from the caller's [E], and whose [e], [dmp1] and [dmq1]
    keep their initial [0] and [null]. *)
Theorem native_delivers_imported_key :
  forall lib callback_throws subtle B E kp j sn sd sp sq,
    generateKey subtle (keyGenOpt B E) true ["sign"%string; "verify"%string]
    = Fulfilled kp ->
    exportKey subtle "jwk" (privateKey subtle kp) = Fulfilled j ->
    jwk_n j = Some sn -> jwk_d j = Some sd ->
    jwk_p j = Some sp -> jwk_q j = Some sq ->
    invocations (generate_native lib callback_throws subtle B E)
    = [ {| err := None;
           key := Some
             {| keyObject.n := Some (import_value lib sn);
                keyObject.e := 0;
                keyObject.ee := Some (BigInteger_of_hex lib E);
                keyObject.d := Some (import_value lib sd);
                keyObject.p := Some (import_value lib sp);
                keyObject.q := Some (import_value lib sq);
                keyObject.dmp1 := None;
                keyObject.dmq1 := None;
                keyObject.u :=
                  Some (BigInteger.modInverse (import_value lib sp)
                          (import_value lib sq)) |} |} ].
Proof.
  intros lib callback_throws subtle B E kp j sn sd sp sq
    Hgen Hexp Hn Hd Hp Hq.
  unfold generate_native, then_. rewrite Hgen.
  unfold onGenerated. cbn [fst snd]. rewrite Hexp.
  unfold onExported, import_field, import_value. rewrite Hn, Hd, Hp, Hq.
  unfold callback.
  destruct (callback_throws _); reflexivity.
Qed.

(** The platform that exports the toy key, with a callback that throws
    only on failures. *)
Lemma native_delivers_imported_key_witness :
  invocations (generate_native toy_library rethrowing_callback toy_platform
                 8 "7")
  = [ {| err := None;
         key := Some
           {| keyObject.n := Some (import_value toy_library "8f");
              keyObject.e := 0;
              keyObject.ee := Some (BigInteger_of_hex toy_library "7");
              keyObject.d := Some (import_value toy_library "67");
              keyObject.p := Some (import_value toy_library "0d");
              keyObject.q := Some (import_value toy_library "0b");
              keyObject.dmp1 := None;
              keyObject.dmq1 := None;
              keyObject.u :=
                Some (BigInteger.modInverse (import_value toy_library "0d")
                        (import_value toy_library "0b")) |} |} ].
Proof.
  apply (native_delivers_imported_key toy_library rethrowing_callback
           toy_platform 8 "7" tt
           {| jwk_n := Some "8f"%string; jwk_d := Some "67"%string;
              jwk_p := Some "0d"%string; jwk_q := Some "0b"%string |});
    reflexivity.
Defined.

(** X16.  When the platform creates the key but its export lacks one of
    the fields [n], [d], [p], [q], [onExported] throws before it reaches
    the callback: the native path never invokes the callback, neither with
    a key nor with a failure. *)
Theorem native_silent_on_incomplete_export :
  forall lib callback_throws subtle B E kp j,
    generateKey subtle (keyGenOpt B E) true ["sign"%string; "verify"%string]
    = Fulfilled kp ->
    exportKey subtle "jwk" (privateKey subtle kp) = Fulfilled j ->
    jwk_n j = None \/ jwk_d j = None \/ jwk_p j = None \/ jwk_q j = None ->
    invocations (generate_native lib callback_throws subtle B E) = [].
Proof.
  intros lib callback_throws subtle B E kp j Hgen Hexp Hmiss.
  unfold generate_native, then_. rewrite Hgen.
  unfold onGenerated. cbn [fst snd]. rewrite Hexp.
  unfold onExported, import_field.
  destruct (jwk_n j), (jwk_d j), (jwk_p j), (jwk_q j);
    try reflexivity.
  destruct Hmiss as [H | [H | [H | H]]]; discriminate.
Qed.

Lemma native_silent_on_incomplete_export_witness :
  invocations (generate_native toy_library quiet_callback partial_platform
                 8 "7") = [].
Proof.
  apply (native_silent_on_incomplete_export toy_library quiet_callback
           partial_platform 8 "7" tt
           {| jwk_n := Some "8f"%string; jwk_d := None;
              jwk_p := Some "0d"%string; jwk_q := Some "0b"%string |}).
  - reflexivity.
  - reflexivity.
  - right. left. reflexivity.
Defined.

(** X17.  When the platform creates the key and rejects its export, the
    native path invokes the callback exactly once, with the failure,
    whether or not the callback throws. *)
Theorem native_reports_rejected_export_once :
  forall lib callback_throws subtle B E kp,
    generateKey subtle (keyGenOpt B E) true ["sign"%string; "verify"%string]
    = Fulfilled kp ->
    exportKey subtle "jwk" (privateKey subtle kp) = Rejected ->
    invocations (generate_native lib callback_throws subtle B E) = [failure].
Proof.
  intros lib callback_throws subtle B E kp Hgen Hexp.
  unfold generate_native, then_. rewrite Hgen.
  unfold onGenerated. cbn [fst snd]. rewrite Hexp.
  unfold onError, callback, failure.
  destruct (callback_throws _); reflexivity.
Qed.

Lemma native_reports_rejected_export_once_witness :
  invocations (generate_native toy_library rethrowing_callback
                 export_rejecting_platform 8 "7") = [failure].
Proof.
  apply (native_reports_rejected_export_once toy_library rethrowing_callback
           export_rejecting_platform 8 "7" tt); reflexivity.
Defined.

(** X18.  When the platform rejects the creation of the key, the native
    path sends no export request and invokes the callback with the
    failure: once if the callback returns from it, twice if the callback
    throws on it. *)
Theorem native_reports_rejected_creation :
  forall lib callback_throws subtle B E,
    generateKey subtle (keyGenOpt B E) true ["sign"%string; "verify"%string]
    = Rejected ->
    generate_native lib callback_throws subtle B E
    = GenerateKey (keyGenOpt B E) true ["sign"%string; "verify"%string]
      :: Callback failure
      :: (if callback_throws failure then [Callback failure] else []).
Proof.
  intros lib callback_throws subtle B E Hgen.
  unfold generate_native, then_. rewrite Hgen.
  unfold onError, callback, failure.
  destruct (callback_throws
              {| err := Some "Generating key failed!"%string; key := None |});
    reflexivity.
Qed.

Lemma native_reports_rejected_creation_witness :
  generate_native toy_library quiet_callback rejecting_platform 8 "7"
  = GenerateKey (keyGenOpt 8 "7") true ["sign"%string; "verify"%string]
    :: Callback failure
    :: (if quiet_callback failure then [Callback failure] else []).
Proof.
  apply (native_reports_rejected_creation toy_library quiet_callback
           rejecting_platform 8 "7").
  reflexivity.
Defined.

(** ** Helpers *)

Lemma base64_char_not_url c :
  base64_char c <> "-"%char /\ base64_char c <> "_"%char.
Proof.
  unfold base64_char.
  destruct (Ascii.eqb_spec c "-"%char) as [-> | Hd]; [split; discriminate |].
  destruct (Ascii.eqb_spec c "_"%char) as [-> | Hu]; [split; discriminate |].
  split; assumption.
Qed.

Lemma base64_char_idempotent c : base64_char (base64_char c) = base64_char c.
Proof.
  destruct (base64_char_not_url c) as [Hd Hu].
  unfold base64_char at 1.
  destruct (Ascii.eqb_spec (base64_char c) "-"%char); [contradiction |].
  destruct (Ascii.eqb_spec (base64_char c) "_"%char); [contradiction |].
  reflexivity.
Qed.

(** X19.  [base64] keeps the length of its argument, leaves no ["-"] and
    no ["_"] at any position of its result, changes no other character,
    and applying it twice is applying it once. *)
Theorem base64_replaces_url_characters :
  forall s,
    String.length (base64 s) = String.length s /\
    base64 (base64 s) = base64 s /\
    forall i,
      String.get i (base64 s) <> Some "-"%char /\
      String.get i (base64 s) <> Some "_"%char /\
      (String.get i s <> Some "-"%char ->
       String.get i s <> Some "_"%char ->
       String.get i (base64 s) = String.get i s).
Proof.
  induction s as [| c s [IHlen [IHidem IHget]]].
  - repeat split; try reflexivity; intros; cbn; try discriminate.
  - split; [cbn; rewrite IHlen; reflexivity |].
    split; [cbn; rewrite base64_char_idempotent, IHidem; reflexivity |].
    intros [| i]; cbn.
    + destruct (base64_char_not_url c) as [Hd Hu].
      repeat split; try congruence.
      intros Hnd Hnu. unfold base64_char.
      destruct (Ascii.eqb_spec c "-"%char); [congruence |].
      destruct (Ascii.eqb_spec c "_"%char); [congruence |].
      reflexivity.
    + apply IHget.
Qed.

Lemma store_length n v byteArray :
  List.length (store n v byteArray) = List.length byteArray.
Proof.
  revert n. induction byteArray as [| b rest IH]; intros [| n];
    cbn; try reflexivity.
  rewrite IH. reflexivity.
Qed.

(** The loop of [nextBytes] keeps what lies before its index and fills
    what lies after. *)
Lemma nextBytes_from_spec octet done todo k :
  nextBytes_from octet (List.length todo) (List.length done) (done ++ todo) k
  = (done ++ map octet (seq k (List.length todo)),
     (k + List.length todo)%nat).
Proof.
  revert done k. induction todo as [| b todo IH]; intros done k.
  - cbn. rewrite Nat.add_0_r. reflexivity.
  - cbn [List.length nextBytes_from].
    assert (Hlt : (List.length done <? List.length (done ++ b :: todo))%nat
                  = true).
    { apply Nat.ltb_lt. rewrite length_app. cbn. lia. }
    rewrite Hlt.
    assert (Hstore : store (List.length done) (octet k) (done ++ b :: todo)
                     = (done ++ [octet k]) ++ todo).
    { clear. induction done as [| x done IHd]; cbn; [reflexivity |].
      rewrite IHd. reflexivity. }
    rewrite Hstore.
    replace (S (List.length done)) with (List.length (done ++ [octet k]))
      by (rewrite length_app; cbn; lia).
    rewrite IH. cbn [seq map]. rewrite <- app_assoc. cbn.
    f_equal. lia.
Qed.

(** X20.  [nextBytes] overwrites every slot of the array with the next
    octets of the random source, in order: the result has the length of
    the argument, does not depend on what the array held, and the call
    draws as many octets as the array has slots. *)
Theorem nextBytes_fills_array :
  forall octet byteArray k,
    nextBytes octet byteArray k
    = (map octet (seq k (List.length byteArray)),
       (k + List.length byteArray)%nat).
Proof.
  intros octet byteArray k. unfold nextBytes.
  apply (nextBytes_from_spec octet [] byteArray k).
Qed.

(** X21.  From the initial state, where the unblinder is [ZERO], the first
    call of [blind] for a positive modulus never squares: it makes the
    first call to the random source, for the range from [TWO] to [n], and
    installs the answer as the unblinder. *)
Theorem first_blind_draws :
  forall source m n e,
    0 < n ->
    let s' := snd (blind source m n e initial_state) in
    unblinder s' = source 0%nat 2 n /\ draws s' = 1%nat.
Proof.
  intros source m n e Hn s'. subst s'.
  unfold blind, bind, get_unblinder, get_blinder, set_unblinder, set_blinder,
    ret, random_in_range, initial_state. cbn [unblinder].
  assert (Hbits : (BigInteger.bitLength BigInteger.ZERO
                   =? BigInteger.bitLength n) = false).
  { unfold BigInteger.bitLength, BigInteger.ZERO.
    rewrite Z.ltb_irrefl.
    replace (0 <? n) with true by (symmetry; apply Z.ltb_lt; lia).
    pose proof (Z.log2_nonneg n). apply Z.eqb_neq. lia. }
  rewrite Hbits. split; reflexivity.
Qed.

Lemma first_blind_draws_witness :
  let s' := snd (blind (constant_source 2) 5 143 7 initial_state) in
  unblinder s' = constant_source 2 0%nat 2 143 /\ draws s' = 1%nat.
Proof.
  apply (first_blind_draws (constant_source 2) 5 143 7). lia.
Defined.
